(** * OpenTTD network core: packet dispatch, deferred deletion, loan commands

    A shallow embedding of
    - [src/network/core/tcp_game.h], [src/network/core/tcp_game.cpp]
      (game-session packet types, [NetworkGameSocketHandler]),
    - [src/network/core/tcp_coordinator.cpp]
      ([NetworkCoordinatorSocketHandler]),
    - [src/network/network_client.h] (the overrides of the client class),
    - [src/network/network_internal.h] ([CommandPacket], frame counters),
    - [src/misc_cmd.cpp] (the loan commands, [CmdPause]),
    - [src/newgrf_generic.cpp] (the generic feature callbacks),
    - [src/autoreplace_cmd.cpp] (the refit order checks,
      [CheckCargoCapacity]),
    followed by the properties proved about them. *)

From Stdlib Require Import ZArith List Bool Lia.
From stdpp Require Import base option list gmap.
Import ListNotations.

Local Open Scope Z_scope.

(** ** Shared network types *)

Module Core.

(** Status values handlers hand back ([NetworkRecvStatus]).  The declaring
    header (core/core.h) is not part of the sources at hand; the members are
    the ones the sources name plus the terminal dispositions the protocol
    description lists. *)
Inductive NetworkRecvStatus : Type :=
  | NETWORK_RECV_STATUS_OKAY
  | NETWORK_RECV_STATUS_DESYNC
  | NETWORK_RECV_STATUS_CLIENT_QUIT
  | NETWORK_RECV_STATUS_MALFORMED_PACKET
  | NETWORK_RECV_STATUS_SERVER_FULL
  | NETWORK_RECV_STATUS_SERVER_BANNED
  | NETWORK_RECV_STATUS_CONNECTION_LOST.

#[export] Instance NetworkRecvStatus_eq_dec : EqDecision NetworkRecvStatus.
Proof. solve_decision. Defined.

(** A fully framed packet as the dispatcher sees it: the one-byte type tag
    that [Recv_uint8] reads first, then the body. Bytes are [Z] in 0..255. *)
Record Packet : Type := mkPacket {
  packet_tag : Z;
  packet_body : list Z
}.

Definition Recv_uint8 (p : Packet) : Z := packet_tag p.

(** [_switch_mode] values; only [SM_MENU] is written by the code here. *)
Inductive SwitchMode : Type := SM_NONE | SM_MENU.

End Core.
Export Core.

(** ** Game-session protocol: tcp_game.h / tcp_game.cpp *)

Module TcpGame.

(** [enum class PacketGameType : uint8_t], in declaration order. *)
Inductive PacketGameType : Type :=
  | ServerFull
  | ServerBanned
  | ClientJoin
  | ServerError
  | ClientUnused
  | ServerUnused
  | ServerGameInfo
  | ClientGameInfo
  | ServerNewGame
  | ServerShutdown
  | ServerAuthenticationRequest
  | ClientAuthenticationResponse
  | ServerEnableEncryption
  | ClientIdentify
  | ServerCheckNewGRFs
  | ClientNewGRFsChecked
  | ServerWelcome
  | ServerClientInfo
  | ClientGetMap
  | ServerWaitForMap
  | ServerMapBegin
  | ServerMapSize
  | ServerMapData
  | ServerMapDone
  | ClientMapOk
  | ServerClientJoined
  | ServerFrame
  | ClientAck
  | ServerSync
  | ClientCommand
  | ServerCommand
  | ClientChat
  | ServerChat
  | ServerExternalChat
  | ClientRemoteConsoleCommand
  | ServerRemoteConsoleCommand
  | ClientMove
  | ServerMove
  | ClientSetName
  | ServerConfigurationUpdate
  | ClientQuit
  | ServerQuit
  | ClientError
  | ServerErrorQuit.

#[export] Instance PacketGameType_eq_dec : EqDecision PacketGameType.
Proof. solve_decision. Defined.

(** Every enumerator, in declaration order. *)
Definition PacketGameType_members : list PacketGameType :=
  [ ServerFull; ServerBanned; ClientJoin; ServerError; ClientUnused;
    ServerUnused; ServerGameInfo; ClientGameInfo; ServerNewGame;
    ServerShutdown; ServerAuthenticationRequest;
    ClientAuthenticationResponse; ServerEnableEncryption; ClientIdentify;
    ServerCheckNewGRFs; ClientNewGRFsChecked; ServerWelcome;
    ServerClientInfo; ClientGetMap; ServerWaitForMap; ServerMapBegin;
    ServerMapSize; ServerMapData; ServerMapDone; ClientMapOk;
    ServerClientJoined; ServerFrame; ClientAck; ServerSync; ClientCommand;
    ServerCommand; ClientChat; ServerChat; ServerExternalChat;
    ClientRemoteConsoleCommand; ServerRemoteConsoleCommand; ClientMove;
    ServerMove; ClientSetName; ServerConfigurationUpdate; ClientQuit;
    ServerQuit; ClientError; ServerErrorQuit ].

(** The underlying [uint8_t] of an enumerator: no enumerator has an explicit
    initialiser, so they count up from 0. *)
Definition PacketGameType_value (t : PacketGameType) : Z :=
  match t with
  | ServerFull => 0
  | ServerBanned => 1
  | ClientJoin => 2
  | ServerError => 3
  | ClientUnused => 4
  | ServerUnused => 5
  | ServerGameInfo => 6
  | ClientGameInfo => 7
  | ServerNewGame => 8
  | ServerShutdown => 9
  | ServerAuthenticationRequest => 10
  | ClientAuthenticationResponse => 11
  | ServerEnableEncryption => 12
  | ClientIdentify => 13
  | ServerCheckNewGRFs => 14
  | ClientNewGRFsChecked => 15
  | ServerWelcome => 16
  | ServerClientInfo => 17
  | ClientGetMap => 18
  | ServerWaitForMap => 19
  | ServerMapBegin => 20
  | ServerMapSize => 21
  | ServerMapData => 22
  | ServerMapDone => 23
  | ClientMapOk => 24
  | ServerClientJoined => 25
  | ServerFrame => 26
  | ClientAck => 27
  | ServerSync => 28
  | ClientCommand => 29
  | ServerCommand => 30
  | ClientChat => 31
  | ServerChat => 32
  | ServerExternalChat => 33
  | ClientRemoteConsoleCommand => 34
  | ServerRemoteConsoleCommand => 35
  | ClientMove => 36
  | ServerMove => 37
  | ClientSetName => 38
  | ServerConfigurationUpdate => 39
  | ClientQuit => 40
  | ServerQuit => 41
  | ClientError => 42
  | ServerErrorQuit => 43
  end.

(** [static_cast<PacketGameType>(byte)]: the enumerator carrying that value,
    if there is one. A byte that names no enumerator is still a value of the
    C++ type and reaches the [default] branch of every switch. *)
Definition PacketGameType_of_byte (b : Z) : option PacketGameType :=
  List.find (fun t => PacketGameType_value t =? b) PacketGameType_members.

(** Calls to collaborators outside the handler, oldest first. *)
Inductive Event : Type :=
  | EvDebugInvalidType (tag : Z)
  | EvDebugIllegalType (type : PacketGameType)
  | EvEmergencySave
  | EvShowErrorMessage
  | EvCloseConnection (status : NetworkRecvStatus).

#[export] Instance Event_eq_dec : EqDecision Event.
Proof. solve_decision. Defined.

(** What a game socket handler can touch: the globals [_network_server],
    [_networking] and [_switch_mode], the calls it made, and the fields of
    the derived class ([D]). The time stamp [last_packet] is wall-clock time
    and is left out. *)
Record Conn (D : Type) : Type := mkConn {
  _network_server : bool;
  _networking : bool;
  _switch_mode : SwitchMode;
  trace : list Event;
  derived : D
}.
Arguments mkConn {D} _ _ _ _ _.
Arguments _network_server {D} _.
Arguments _networking {D} _.
Arguments _switch_mode {D} _.
Arguments trace {D} _.
Arguments derived {D} _.

Definition emit {D} (e : Event) (s : Conn D) : Conn D :=
  mkConn (_network_server s) (_networking s) (_switch_mode s)
         (trace s ++ [e]) (derived s).

Definition set_switch_mode {D} (m : SwitchMode) (s : Conn D) : Conn D :=
  mkConn (_network_server s) (_networking s) m (trace s) (derived s).

Definition set_networking {D} (b : bool) (s : Conn D) : Conn D :=
  mkConn (_network_server s) b (_switch_mode s) (trace s) (derived s).

(** A method body: consumes the packet, returns a status and the new state. *)
Definition Handler (D : Type) : Type :=
  Packet -> Conn D -> NetworkRecvStatus * Conn D.

(** The virtual methods of a class derived from [NetworkGameSocketHandler]:
    for each packet type the override of the matching [Receive...] method
    ([None] when the class inherits the base implementation), and the pure
    virtual [CloseConnection(NetworkRecvStatus)]. *)
Record GameSocketClass (D : Type) : Type := mkGameSocketClass {
  Receive_override : PacketGameType -> option (Handler D);
  CloseConnection_status : NetworkRecvStatus -> Conn D -> NetworkRecvStatus * Conn D
}.
Arguments Receive_override {D} _ _.
Arguments CloseConnection_status {D} _ _ _.

(** Invoking the virtual [CloseConnection(NetworkRecvStatus)]; the call is
    recorded in the trace. *)
Definition call_CloseConnection {D} (cls : GameSocketClass D)
    (status : NetworkRecvStatus) (s : Conn D) : NetworkRecvStatus * Conn D :=
  CloseConnection_status cls status (emit (EvCloseConnection status) s).

(** [NetworkGameSocketHandler::CloseConnection(bool)]. *)
Definition CloseConnection {D} (cls : GameSocketClass D) (s : Conn D)
    : NetworkRecvStatus * Conn D :=
  if negb (_network_server s) && _networking s then
    let s := emit EvEmergencySave s in
    let s := set_switch_mode SM_MENU s in
    let s := set_networking false s in
    let s := emit EvShowErrorMessage s in
    call_CloseConnection cls NETWORK_RECV_STATUS_CLIENT_QUIT s
  else
    call_CloseConnection cls NETWORK_RECV_STATUS_CONNECTION_LOST s.

(** [NetworkGameSocketHandler::ReceiveInvalidPacket]. *)
Definition ReceiveInvalidPacket {D} (type : PacketGameType) (s : Conn D)
    : NetworkRecvStatus * Conn D :=
  (NETWORK_RECV_STATUS_MALFORMED_PACKET, emit (EvDebugIllegalType type) s).

(** The base-class body of every [Receive...] method. *)
Definition base_Receive {D} (type : PacketGameType) : Handler D :=
  fun _ s => ReceiveInvalidPacket type s.

(** Virtual dispatch of the [Receive...] method that belongs to [type]. *)
Definition Receive {D} (cls : GameSocketClass D) (type : PacketGameType)
    : Handler D :=
  match Receive_override cls type with
  | Some h => h
  | None => base_Receive type
  end.

(** The [default:] branch of [HandlePacket]. *)
Definition HandlePacket_default {D} (cls : GameSocketClass D) (tag : Z)
    (s : Conn D) : NetworkRecvStatus * Conn D :=
  let s := emit (EvDebugInvalidType tag) s in
  let '(_, s) := CloseConnection cls s in
  (NETWORK_RECV_STATUS_MALFORMED_PACKET, s).

(** [NetworkGameSocketHandler::HandlePacket]: the switch has a case for every
    enumerator but [ClientUnused] and [ServerUnused]. *)
Definition HandlePacket {D} (cls : GameSocketClass D) (p : Packet)
    (s : Conn D) : NetworkRecvStatus * Conn D :=
  let tag := Recv_uint8 p in
  match PacketGameType_of_byte tag with
  | Some ClientUnused | Some ServerUnused | None =>
      HandlePacket_default cls tag s
  | Some type => Receive cls type p s
  end.

(** [NetworkGameSocketHandler::ReceivePackets]. [queue] holds the packets
    [ReceivePacket()] will hand out, oldest first; the packets not taken from
    it are returned next to the status. *)
Fixpoint ReceivePackets {D} (cls : GameSocketClass D) (queue : list Packet)
    (s : Conn D) : NetworkRecvStatus * Conn D * list Packet :=
  match queue with
  | [] => (NETWORK_RECV_STATUS_OKAY, s, [])
  | p :: queue' =>
      let '(res, s') := HandlePacket cls p s in
      if decide (res = NETWORK_RECV_STATUS_OKAY)
      then ReceivePackets cls queue' s'
      else (res, s', queue')
  end.

End TcpGame.
Export TcpGame.

(** ** The client class: network_client.h *)

Module NetworkClient.

(** [ClientNetworkGameSocketHandler::ServerStatus]. *)
Inductive ServerStatus : Type :=
  | STATUS_INACTIVE
  | STATUS_JOIN
  | STATUS_AUTH_GAME
  | STATUS_ENCRYPTED
  | STATUS_NEWGRFS_CHECK
  | STATUS_AUTHORIZED
  | STATUS_MAP_WAIT
  | STATUS_MAP
  | STATUS_ACTIVE
  | STATUS_END.

(** The private fields of the client class the protocol reads. *)
Record ClientFields : Type := mkClientFields {
  status : ServerStatus;
  token : Z
}.

(** The [Receive...] methods the client class declares with [override]. *)
Definition client_overrides (type : PacketGameType) : bool :=
  match type with
  | ServerFull | ServerBanned | ServerError | ServerClientInfo
  | ServerAuthenticationRequest | ServerEnableEncryption | ServerWelcome
  | ServerWaitForMap | ServerMapBegin | ServerMapSize | ServerMapData
  | ServerMapDone | ServerClientJoined | ServerFrame | ServerSync
  | ServerCommand | ServerChat | ServerExternalChat | ServerQuit
  | ServerErrorQuit | ServerShutdown | ServerNewGame
  | ServerRemoteConsoleCommand | ServerCheckNewGRFs | ServerMove
  | ServerConfigurationUpdate => true
  | _ => false
  end.

(** The client class as a table of virtual methods. The header only declares
    the overrides, so their bodies ([bodies], [close]) are arguments. *)
Definition ClientNetworkGameSocketHandler
    (bodies : PacketGameType -> Handler ClientFields)
    (close : NetworkRecvStatus -> Conn ClientFields ->
             NetworkRecvStatus * Conn ClientFields)
    : GameSocketClass ClientFields :=
  mkGameSocketClass ClientFields
    (fun type => if client_overrides type then Some (bodies type) else None)
    close.

(** Bodies used to run the client class on concrete packets: every
    overridden handler accepts its packet and leaves the state alone, and
    closing hands back the status it was given. *)
Definition accept_all : PacketGameType -> Handler ClientFields :=
  fun _ _ s => (NETWORK_RECV_STATUS_OKAY, s).

Definition close_returns_status {D : Type} (status : NetworkRecvStatus)
    (s : Conn D) : NetworkRecvStatus * Conn D := (status, s).

Definition sample_client : GameSocketClass ClientFields :=
  ClientNetworkGameSocketHandler accept_all close_returns_status.

(** Modelled from the spec: the body of
    [ClientNetworkGameSocketHandler::CloseConnection(NetworkRecvStatus)],
    which the header declares as an override and network_client.cpp, not
    among the sources, defines. In the spec's connection state machine every
    state goes to Inactive on connection loss, explicit quit or a fatal
    protocol error; the status given is the reason of the close and is
    handed back. *)
Definition client_CloseConnection (status : NetworkRecvStatus)
    (s : Conn ClientFields) : NetworkRecvStatus * Conn ClientFields :=
  (status,
   mkConn (_network_server s) (_networking s) (_switch_mode s) (trace s)
          (mkClientFields STATUS_INACTIVE (token (derived s)))).

(** The client class with that close method; the bodies of the [Receive...]
    overrides stay arguments. *)
Definition closing_client (bodies : PacketGameType -> Handler ClientFields)
    : GameSocketClass ClientFields :=
  ClientNetworkGameSocketHandler bodies client_CloseConnection.

(** A client in the middle of a game: not the server, networking on. *)
Definition playing_client (st : ServerStatus) : Conn ClientFields :=
  mkConn false true SM_NONE [] (mkClientFields st 0).

End NetworkClient.

(** ** Deferred deletion: tcp_game.cpp *)

Module Deferred.

(** The part of a [NetworkGameSocketHandler] object deletion looks at. *)
Record SocketHandler : Type := mkSocketHandler {
  client_id : Z;
  is_pending_deletion : bool
}.

(** Live handler objects by address, the file-static vector
    [_deferred_deletions] of owning pointers, and the destructor calls made
    so far (oldest first). *)
Record Heap : Type := mkHeap {
  objects : gmap nat SocketHandler;
  _deferred_deletions : list nat;
  destroyed : list nat
}.

Definition empty_heap : Heap := mkHeap ∅ [] [].

(** Constructing a handler at a fresh address. *)
Definition construct (this : nat) (id : Z) (h : Heap) : Heap :=
  mkHeap (<[this := mkSocketHandler id false]> (objects h))
         (_deferred_deletions h) (destroyed h).

(** [IsPendingDeletion()], [None] when [this] is not a live object. *)
Definition IsPendingDeletion (this : nat) (h : Heap) : option bool :=
  is_pending_deletion <$> objects h !! this.

Definition is_live (this : nat) (h : Heap) : bool :=
  bool_decide (is_Some (objects h !! this)).

(** [NetworkGameSocketHandler::DeferDeletion]. *)
Definition DeferDeletion (this : nat) (h : Heap) : Heap :=
  mkHeap (alter (fun o => mkSocketHandler (client_id o) true) this (objects h))
         (_deferred_deletions h ++ [this])
         (destroyed h).

(** What the deleter of one owning pointer does: run the destructor and
    release the object. *)
Definition delete_handler (h : Heap) (p : nat) : Heap :=
  mkHeap (delete p (objects h)) (_deferred_deletions h) (destroyed h ++ [p]).

(** [NetworkGameSocketHandler::ProcessDeferredDeletions]: [clear()] runs the
    deleter on every element and leaves the vector empty. *)
Definition ProcessDeferredDeletions (h : Heap) : Heap :=
  let h' := fold_left delete_handler (_deferred_deletions h) h in
  mkHeap (objects h') [] (destroyed h').

(** The operations of the two-phase close. *)
Inductive Op : Type :=
  | OpConstruct (this : nat) (id : Z)
  | OpDeferDeletion (this : nat)
  | OpProcessDeferredDeletions.

Definition run_op (h : Heap) (o : Op) : Heap :=
  match o with
  | OpConstruct this id => construct this id h
  | OpDeferDeletion this => DeferDeletion this h
  | OpProcessDeferredDeletions => ProcessDeferredDeletions h
  end.

(** What C++ asks of the caller: an object is constructed at an address not
    in use, and ownership of a live object is handed to the vector once. *)
Definition op_allowed (h : Heap) (o : Op) : bool :=
  match o with
  | OpConstruct this _ => negb (is_live this h)
  | OpDeferDeletion this =>
      bool_decide (IsPendingDeletion this h = Some false)
  | OpProcessDeferredDeletions => true
  end.

Fixpoint run_allowed (h : Heap) (ops : list Op) : option Heap :=
  match ops with
  | [] => Some h
  | o :: ops' =>
      if op_allowed h o then run_allowed (run_op h o) ops' else None
  end.

End Deferred.

(** ** Rendezvous protocol: tcp_coordinator.cpp *)

Module TcpCoordinator.

(** The members of [PacketCoordinatorType] that [HandlePacket] dispatches,
    in the order of its switch. The header declaring the enumeration is not
    among the sources. *)
Inductive PacketCoordinatorType : Type :=
  | GameCoordinatorError
  | ServerRegister
  | GameCoordinatorRegisterAck
  | ServerUpdate
  | ClientListing
  | GameCoordinatorListing
  | ClientConnect
  | GameCoordinatorConnecting
  | ServerOrClientConnectFailed
  | GameCoordinatorConnectFailed
  | ClientConnected
  | GameCoordinatorDirectConnect
  | GameCoordinatorStunRequest
  | ServerOrClientStunResult
  | GameCoordinatorStunConnect
  | GameCoordinatorNewGRFLookup
  | GameCoordinatorTurnConnect.

#[export] Instance PacketCoordinatorType_eq_dec : EqDecision PacketCoordinatorType.
Proof. solve_decision. Defined.

Definition dispatched_members : list PacketCoordinatorType :=
  [ GameCoordinatorError; ServerRegister; GameCoordinatorRegisterAck;
    ServerUpdate; ClientListing; GameCoordinatorListing; ClientConnect;
    GameCoordinatorConnecting; ServerOrClientConnectFailed;
    GameCoordinatorConnectFailed; ClientConnected;
    GameCoordinatorDirectConnect; GameCoordinatorStunRequest;
    ServerOrClientStunResult; GameCoordinatorStunConnect;
    GameCoordinatorNewGRFLookup; GameCoordinatorTurnConnect ].

(** Debug output of the coordinator handler. *)
Inductive CEvent : Type :=
  | CDebugInvalidType (tag : Z)
  | CDebugIllegalType (type : PacketCoordinatorType).

Record CConn (D : Type) : Type := mkCConn {
  ctrace : list CEvent;
  cderived : D
}.
Arguments mkCConn {D} _ _.
Arguments ctrace {D} _.
Arguments cderived {D} _.

Definition cemit {D} (e : CEvent) (s : CConn D) : CConn D :=
  mkCConn (ctrace s ++ [e]) (cderived s).

Definition CHandler (D : Type) : Type := Packet -> CConn D -> bool * CConn D.

(** What the sources leave open about a coordinator connection: the
    numbering of the enumeration ([cast] is [static_cast] from the tag byte,
    [None] for a byte that is none of the dispatched members) and the
    overrides of the derived class. *)
Record CoordinatorClass (D : Type) : Type := mkCoordinatorClass {
  cast : Z -> option PacketCoordinatorType;
  CReceive_override : PacketCoordinatorType -> option (CHandler D)
}.
Arguments cast {D} _ _.
Arguments CReceive_override {D} _ _.

(** [NetworkCoordinatorSocketHandler::ReceiveInvalidPacket]. *)
Definition ReceiveInvalidPacket {D} (type : PacketCoordinatorType)
    (s : CConn D) : bool * CConn D :=
  (false, cemit (CDebugIllegalType type) s).

Definition CReceive {D} (cls : CoordinatorClass D)
    (type : PacketCoordinatorType) : CHandler D :=
  match CReceive_override cls type with
  | Some h => h
  | None => fun _ s => ReceiveInvalidPacket type s
  end.

(** [NetworkCoordinatorSocketHandler::HandlePacket]. *)
Definition HandlePacket {D} (cls : CoordinatorClass D) (p : Packet)
    (s : CConn D) : bool * CConn D :=
  let tag := Recv_uint8 p in
  match cast cls tag with
  | Some type => CReceive cls type p s
  | None => (false, cemit (CDebugInvalidType tag) s)
  end.

Definition MAX_PACKETS_TO_RECEIVE : Z := 42.

(** The [while] loop of [ReceivePackets], entered with the value [i] has
    before the next [--i]; the result is the value returned, the state, and
    the packets left in the receive queue. *)
Fixpoint ReceivePackets_loop {D} (cls : CoordinatorClass D) (i : Z)
    (queue : list Packet) (s : CConn D) : bool * CConn D * list Packet :=
  let i := i - 1 in
  if i =? 0 then (negb (i =? MAX_PACKETS_TO_RECEIVE - 1), s, queue)
  else
    match queue with
    | [] => (negb (i =? MAX_PACKETS_TO_RECEIVE - 1), s, queue)
    | p :: queue' =>
        let '(cont, s') := HandlePacket cls p s in
        if negb cont then (true, s', queue')
        else ReceivePackets_loop cls i queue' s'
    end.

(** [NetworkCoordinatorSocketHandler::ReceivePackets]. *)
Definition ReceivePackets {D} (cls : CoordinatorClass D)
    (queue : list Packet) (s : CConn D) : bool * CConn D * list Packet :=
  ReceivePackets_loop cls MAX_PACKETS_TO_RECEIVE queue s.

(** Packets handed to [HandlePacket] by one call. *)
Definition packets_handled {D} (cls : CoordinatorClass D)
    (queue : list Packet) (s : CConn D) : nat :=
  (length queue - length (ReceivePackets cls queue s).2)%nat.

(** A coordinator class for running the code on concrete input: tags number
    the dispatched members in switch order, every handler is overridden and
    asks for more. *)
Definition cast_in_switch_order (b : Z) : option PacketCoordinatorType :=
  if (0 <=? b) && (b <? 17) then dispatched_members !! Z.to_nat b else None.

Definition sample_coordinator : CoordinatorClass unit :=
  mkCoordinatorClass unit cast_in_switch_order
    (fun _ => Some (fun _ s => (true, s))).

End TcpCoordinator.

(** ** Commands on the wire: network_internal.h *)

Module NetworkCommand.

(** [struct CommandPacket]. [callback] stands for the function the pointer
    names, by its ID in the callback table. *)
Record CommandPacket : Type := mkCommandPacket {
  company : Z;
  frame : Z;
  my_cmd : bool;
  cmd : Z;
  err_msg : Z;
  callback : Z;
  data : list Z
}.

#[export] Instance CommandPacket_eq_dec : EqDecision CommandPacket.
Proof. solve_decision. Defined.

Definition set_my_cmd (b : bool) (cp : CommandPacket) : CommandPacket :=
  mkCommandPacket (company cp) (frame cp) b (cmd cp) (err_msg cp)
                  (callback cp) (data cp).

(** Two packets that agree on every field except, possibly, [my_cmd]. *)
Definition differ_only_in_my_cmd (a b : CommandPacket) : Prop :=
  company a = company b /\ frame a = frame b /\ cmd a = cmd b /\
  err_msg a = err_msg b /\ callback a = callback b /\ data a = data b.

(** Modelled from the spec: the packet writers of the framer (class Packet)
    are missing from the sources. Numeric fields are fixed-width in one byte
    order (little-endian, as the length header), raw byte ranges carry an
    explicit count. This one appends a byte. *)
Definition Send_uint8 (v : Z) (buf : list Z) : list Z :=
  buf ++ [v mod 256].

(** Modelled from the spec: the 16-bit writer of class Packet (missing),
    low byte first. *)
Definition Send_uint16 (v : Z) (buf : list Z) : list Z :=
  buf ++ [v mod 256; (v / 256) mod 256].

(** Modelled from the spec: the 32-bit writer of class Packet (missing),
    low byte first. *)
Definition Send_uint32 (v : Z) (buf : list Z) : list Z :=
  buf ++ [v mod 256; (v / 256) mod 256; (v / 65536) mod 256;
          (v / 16777216) mod 256].

(** Modelled from the spec: the buffer writer of class Packet (missing): the
    count of the bytes, then the bytes. *)
Definition Send_buffer (bytes : list Z) (buf : list Z) : list Z :=
  Send_uint16 (Z.of_nat (length bytes)) buf ++ bytes.

(** Modelled from the spec: the body of
    [NetworkGameSocketHandler::SendCommand(Packet &, const CommandPacket &)]
    is missing from the sources (network_command.cpp). It writes the fields
    the header documents for a command packet, in that order: company,
    command ID, parameter buffer, callback ID. *)
Definition SendCommand (cp : CommandPacket) (buf : list Z) : list Z :=
  let buf := Send_uint8 (company cp) buf in
  let buf := Send_uint32 (cmd cp) buf in
  let buf := Send_buffer (data cp) buf in
  Send_uint8 (callback cp) buf.

(** Modelled from the spec: the client's [SendCommand(const CommandPacket &)]
    (network_client.cpp, missing) builds a [ClientCommand] packet that holds
    the command and nothing else. *)
Definition SendClientCommand (cp : CommandPacket) : Packet :=
  mkPacket (PacketGameType_value ClientCommand) (SendCommand cp []).

(** Modelled from the spec: the server's sender (network_server.cpp,
    missing) builds a [ServerCommand] packet: the command, then the frame of
    execution. *)
Definition SendServerCommand (cp : CommandPacket) : Packet :=
  mkPacket (PacketGameType_value ServerCommand)
           (Send_uint32 (frame cp) (SendCommand cp [])).

End NetworkCommand.

(** ** Frame counters: network_internal.h *)

Module FrameSync.

Definition UINT32_MAX : Z := 4294967295.

(** [uint32_t] arithmetic wraps. *)
Definition wrap32 (x : Z) : Z := x mod (UINT32_MAX + 1).

(** The three [extern uint32_t] counters of network_internal.h. *)
Record FrameCounters : Type := mkFrameCounters {
  _frame_counter : Z;
  _frame_counter_max : Z;
  _last_sync_frame : Z
}.

(** The protocol operations that write a counter. *)
Inductive FrameOp : Type :=
  | OpStep
  | OpReceiveFrame (ceiling : Z)
  | OpSync.

(** Modelled from the spec: the code that writes the counters (network.cpp,
    network_client.cpp) is missing from the sources; only their declarations
    are there. Local stepping stalls at the frame ceiling. *)
Definition Step (fc : FrameCounters) : FrameCounters :=
  if _frame_counter fc <? _frame_counter_max fc
  then mkFrameCounters (wrap32 (_frame_counter fc + 1))
                       (_frame_counter_max fc) (_last_sync_frame fc)
  else fc.

(** Modelled from the spec: receipt of a frame broadcast (missing from the
    sources). The frame ceiling is the highest frame the authoritative side
    has authorized so far. *)
Definition ReceiveFrame (ceiling : Z) (fc : FrameCounters) : FrameCounters :=
  mkFrameCounters (_frame_counter fc)
                  (Z.max (_frame_counter_max fc) (wrap32 ceiling))
                  (_last_sync_frame fc).

(** Modelled from the spec: the checksum exchange (missing from the
    sources). A checksum is compared for the frame just executed, which
    becomes the last sync frame. *)
Definition Sync (fc : FrameCounters) : FrameCounters :=
  mkFrameCounters (_frame_counter fc) (_frame_counter_max fc)
                  (_frame_counter fc).

Definition apply_op (fc : FrameCounters) (o : FrameOp) : FrameCounters :=
  match o with
  | OpStep => Step fc
  | OpReceiveFrame ceiling => ReceiveFrame ceiling fc
  | OpSync => Sync fc
  end.

Definition run (fc : FrameCounters) (ops : list FrameOp) : FrameCounters :=
  fold_left apply_op ops fc.

(** Modelled from the spec: a connection starts with all three counters at
    the frame the snapshot was captured at. *)
Definition initial (snapshot_frame : Z) : FrameCounters :=
  let f := wrap32 snapshot_frame in mkFrameCounters f f f.


End FrameSync.

(** ** Loans: misc_cmd.cpp *)

Module MiscCmd.

Definition INT64_MAX : Z := 9223372036854775807.
Definition INT64_MIN : Z := -9223372036854775808.

Definition is_int64 (x : Z) : Prop := INT64_MIN <= x <= INT64_MAX.

(** Modelled from the spec: the class behind [Money]
    (core/overflowsafe_type.hpp) is missing from the sources. It wraps an
    [int64_t]; the comment in [CmdIncreaseLoan] names its overflow
    protection: a sum or difference beyond the limits stops at the limit. *)
Definition saturate (x : Z) : Z := Z.max INT64_MIN (Z.min INT64_MAX x).

(** [Money::max()]. *)
Definition Money_max : Z := INT64_MAX.

(** Modelled from the spec: [operator+] of the class behind [Money]
    (missing), with its overflow protection. *)
Definition Money_add (a b : Z) : Z := saturate (a + b).

(** Modelled from the spec: [operator-] of the class behind [Money]
    (missing), with its overflow protection. *)
Definition Money_sub (a b : Z) : Z := saturate (a - b).

(** [operator%] on the underlying [int64_t]: truncates towards zero. *)
Definition Money_rem (a d : Z) : Z := Z.rem a d.

(** The fields of [Company] the loan commands use. *)
Record Company : Type := mkCompany {
  money : Z;
  current_loan : Z;
  max_loan : Z
}.

Inductive DoCommandFlag : Type := Execute | OtherFlag (bit : nat).

#[export] Instance DoCommandFlag_eq_dec : EqDecision DoCommandFlag.
Proof. solve_decision. Defined.

(** [DoCommandFlags], a set of flags; [flags.Test(f)] is [flags f]. *)
Definition DoCommandFlags : Type := DoCommandFlag -> bool.

Definition flags_of (l : list DoCommandFlag) : DoCommandFlags :=
  fun f => bool_decide (f ∈ l).

(** [LoanCommand] as it arrives: one of the three enumerators, or a value
    that is none of them. *)
Inductive LoanCommand : Type :=
  | Interval
  | Max
  | Amount
  | LoanCommand_invalid (raw : Z).

Inductive StringID : Type :=
  | INVALID_STRING_ID
  | STR_ERROR_MAXIMUM_PERMITTED_LOAN.

Inductive ExpensesType : Type := EXPENSES_OTHER.

(** [CommandCost]: a cost of some expense type, or an error with its message
    and parameter. [CMD_ERROR] is the error without a message. *)
Inductive CommandCost : Type :=
  | Cost (type : ExpensesType) (cost : Z)
  | CostError (message : StringID) (param : option Z).

Definition CMD_ERROR : CommandCost := CostError INVALID_STRING_ID None.

Definition CommandCostWithParam (message : StringID) (value : Z) : CommandCost :=
  CostError message (Some value).

Definition Failed (c : CommandCost) : bool :=
  match c with
  | Cost _ _ => false
  | CostError _ _ => true
  end.

(** The company pool, [_current_company], and the companies whose windows
    were invalidated (oldest first). *)
Record Game : Type := mkGame {
  companies : gmap Z Company;
  _current_company : Z;
  invalidated : list Z
}.

Section Loan.

(** Declared outside the sources: the loan step and [Company::GetMaxLoan]. *)
Variable LOAN_INTERVAL : Z.
Variable GetMaxLoan : Company -> Z.

(** The amount [CmdIncreaseLoan] settles on, or the error it leaves with
    before the overflow check; [c] is the current company. *)
Definition requested_loan (c : Company) (cmd : LoanCommand) (amount : Z)
    : CommandCost + Z :=
  let max_loan := GetMaxLoan c in
  if max_loan <=? current_loan c then
    inl (CommandCostWithParam STR_ERROR_MAXIMUM_PERMITTED_LOAN max_loan)
  else
    match cmd with
    | LoanCommand_invalid _ => inl CMD_ERROR
    | Interval => inr LOAN_INTERVAL
    | Max => inr (Money_sub max_loan (current_loan c))
    | Amount =>
        let loan := amount in
        if (loan <? LOAN_INTERVAL)
           || (max_loan <? Money_add (current_loan c) loan)
           || negb (Money_rem loan LOAN_INTERVAL =? 0)
        then inl CMD_ERROR
        else inr loan
    end.

(** [CmdIncreaseLoan]; [None] when [Company::Get] is handed an ID that is not
    in the pool. *)
Definition CmdIncreaseLoan (flags : DoCommandFlags) (cmd : LoanCommand)
    (amount : Z) (g : Game) : option (CommandCost * Game) :=
  c ← companies g !! _current_company g;
  match requested_loan c cmd amount with
  | inl err => Some (err, g)
  | inr loan =>
      if Money_sub Money_max loan <? money c then Some (CMD_ERROR, g)
      else if flags Execute then
        let c' := mkCompany (Money_add (money c) loan)
                            (Money_add (current_loan c) loan) (max_loan c) in
        Some (Cost EXPENSES_OTHER 0,
              mkGame (<[_current_company g := c']> (companies g))
                     (_current_company g)
                     (invalidated g ++ [_current_company g]))
      else Some (Cost EXPENSES_OTHER 0, g)
  end.

End Loan.

End MiscCmd.

(** ** The other commands of misc_cmd.cpp *)

Module MiscCmdMore.

(** The string IDs the commands below return. *)
Inductive StringID : Type :=
  | INVALID_STRING_ID
  | STR_ERROR_LOAN_ALREADY_REPAYED
  | STR_ERROR_CURRENCY_REQUIRED.

(** [ExpensesType]: the default-constructed cost carries [INVALID_EXPENSES]. *)
Inductive ExpensesType : Type := INVALID_EXPENSES | EXPENSES_OTHER.

(** [CommandCost]: a cost of some expense type, or an error with its message
    and parameter. *)
Inductive CommandCost : Type :=
  | Cost (type : ExpensesType) (cost : Z)
  | CostError (message : StringID) (param : option Z).

Definition CMD_ERROR : CommandCost := CostError INVALID_STRING_ID None.

(** [CommandCost()]: success at no cost. *)
Definition CommandCost_default : CommandCost := Cost INVALID_EXPENSES 0.

Definition CommandCostWithParam (message : StringID) (value : Z) : CommandCost :=
  CostError message (Some value).

Definition Failed (c : CommandCost) : bool :=
  match c with
  | Cost _ _ => false
  | CostError _ _ => true
  end.

Section Commands.

(** Declared outside the sources: the loan step, the money a command may
    spend, the owner ID of the game script, the marker for "use the global
    maximum" and the largest maximum loan. *)
Variable LOAN_INTERVAL : Z.
Variable GetAvailableMoneyForCommand : MiscCmd.Game -> Z.
Variable OWNER_DEITY : Z.
Variable COMPANY_MAX_LOAN_DEFAULT : Z.
Variable MAX_LOAN_LIMIT : Z.

(** The amount [CmdDecreaseLoan] settles on, or the error of the switch. *)
Definition repaid_loan (g : MiscCmd.Game) (c : MiscCmd.Company)
    (cmd : MiscCmd.LoanCommand) (amount : Z) : CommandCost + Z :=
  match cmd with
  | MiscCmd.LoanCommand_invalid _ => inl CMD_ERROR
  | MiscCmd.Interval => inr (Z.min (MiscCmd.current_loan c) LOAN_INTERVAL)
  | MiscCmd.Max =>
      let loan := Z.max (Z.min (MiscCmd.current_loan c)
                               (GetAvailableMoneyForCommand g)) LOAN_INTERVAL in
      inr (MiscCmd.Money_sub loan (MiscCmd.Money_rem loan LOAN_INTERVAL))
  | MiscCmd.Amount =>
      let loan := amount in
      if negb (MiscCmd.Money_rem loan LOAN_INTERVAL =? 0)
         || (loan <? LOAN_INTERVAL)
         || (MiscCmd.current_loan c <? loan)
      then inl CMD_ERROR
      else inr loan
  end.

(** [CmdDecreaseLoan]; [None] when [Company::Get] is handed an ID that is not
    in the pool. *)
Definition CmdDecreaseLoan (flags : MiscCmd.DoCommandFlags)
    (cmd : MiscCmd.LoanCommand) (amount : Z) (g : MiscCmd.Game)
    : option (CommandCost * MiscCmd.Game) :=
  c ← MiscCmd.companies g !! MiscCmd._current_company g;
  if MiscCmd.current_loan c =? 0
  then Some (CostError STR_ERROR_LOAN_ALREADY_REPAYED None, g)
  else
    match repaid_loan g c cmd amount with
    | inl err => Some (err, g)
    | inr loan =>
        if GetAvailableMoneyForCommand g <? loan
        then Some (CommandCostWithParam STR_ERROR_CURRENCY_REQUIRED loan, g)
        else if flags MiscCmd.Execute then
          let c' := MiscCmd.mkCompany
                      (MiscCmd.Money_sub (MiscCmd.money c) loan)
                      (MiscCmd.Money_sub (MiscCmd.current_loan c) loan)
                      (MiscCmd.max_loan c) in
          Some (CommandCost_default,
                MiscCmd.mkGame
                  (<[MiscCmd._current_company g := c']> (MiscCmd.companies g))
                  (MiscCmd._current_company g)
                  (MiscCmd.invalidated g ++ [MiscCmd._current_company g]))
        else Some (CommandCost_default, g)
    end.

(** [CmdSetCompanyMaxLoan]. *)
Definition CmdSetCompanyMaxLoan (flags : MiscCmd.DoCommandFlags)
    (company : Z) (amount : Z) (g : MiscCmd.Game)
    : CommandCost * MiscCmd.Game :=
  if negb (MiscCmd._current_company g =? OWNER_DEITY) then (CMD_ERROR, g)
  else if negb (amount =? COMPANY_MAX_LOAN_DEFAULT)
          && ((amount <? 0) || (MAX_LOAN_LIMIT <? amount))
  then (CMD_ERROR, g)
  else
    match MiscCmd.companies g !! company with
    | None => (CMD_ERROR, g)
    | Some c =>
        if flags MiscCmd.Execute then
          let amount :=
            if negb (amount =? COMPANY_MAX_LOAN_DEFAULT)
            then MiscCmd.Money_sub amount (Z.rem amount LOAN_INTERVAL)
            else amount in
          let c' := MiscCmd.mkCompany (MiscCmd.money c)
                                      (MiscCmd.current_loan c) amount in
          (CommandCost_default,
           MiscCmd.mkGame (<[company := c']> (MiscCmd.companies g))
                          (MiscCmd._current_company g)
                          (MiscCmd.invalidated g ++ [company]))
        else (CommandCost_default, g)
    end.

(** [CmdMoneyCheat]. *)
Definition CmdMoneyCheat (amount : Z) : CommandCost :=
  Cost EXPENSES_OTHER (MiscCmd.Money_sub 0 amount).

End Commands.

(** [PauseMode], the enumerators the sources name. *)
Inductive PauseMode : Type :=
  | Normal
  | SaveLoad
  | Join
  | Error
  | ActiveClients
  | GameScript
  | LinkGraph
  | CommandDuringPause.

#[export] Instance PauseMode_eq_dec : EqDecision PauseMode.
Proof. solve_decision. Defined.

#[export] Instance PauseMode_countable : Countable PauseMode.
Proof.
  refine (inj_countable'
    (fun m => match m with
              | Normal => 0 | SaveLoad => 1 | Join => 2 | Error => 3
              | ActiveClients => 4 | GameScript => 5 | LinkGraph => 6
              | CommandDuringPause => 7
              end%nat)
    (fun n => match n with
              | 0 => Normal | 1 => SaveLoad | 2 => Join | 3 => Error
              | 4 => ActiveClients | 5 => GameScript | 6 => LinkGraph
              | _ => CommandDuringPause
              end%nat) _).
  intros []; reflexivity.
Defined.

(** The mode a pause command arrives with: an enumerator, or a value that is
    none. *)
Inductive PauseModeArg : Type :=
  | Mode (m : PauseMode)
  | Mode_invalid (raw : Z).

Inductive WindowClass : Type := WC_STATUS_BAR | WC_MAIN_TOOLBAR.

(** Calls [CmdPause] makes, oldest first. *)
Inductive PauseEvent : Type :=
  | EvShowQuery
  | EvNetworkHandlePauseChange (prev_mode : gset PauseMode) (changed_mode : PauseMode)
  | EvSetWindowDirty (cls : WindowClass).

(** [_pause_mode] (the set of reasons to be paused), [_networking], and the
    calls made. *)
Record PauseState : Type := mkPauseState {
  _pause_mode : gset PauseMode;
  _networking : bool;
  pause_events : list PauseEvent
}.

(** The body of [CmdPause] under [DoCommandFlag::Execute], for a mode that
    passed the switch. *)
Definition CmdPause_execute (mode : PauseMode) (pause : bool)
    (st : PauseState) : PauseState :=
  let st1 :=
    if bool_decide (mode = Normal) && bool_decide (Error ∈ _pause_mode st)
    then mkPauseState (_pause_mode st) (_networking st)
                      (pause_events st ++ [EvShowQuery])
    else
      let prev_mode := _pause_mode st in
      let pm :=
        if pause then {[mode]} ∪ _pause_mode st
        else
          let pm := _pause_mode st ∖ {[mode]} in
          if bool_decide (pm = {[CommandDuringPause]}) then ∅ else pm in
      mkPauseState pm (_networking st)
        (pause_events st ++ [EvNetworkHandlePauseChange prev_mode mode]) in
  mkPauseState (_pause_mode st1) (_networking st1)
    (pause_events st1 ++ [EvSetWindowDirty WC_STATUS_BAR;
                          EvSetWindowDirty WC_MAIN_TOOLBAR]).

(** [CmdPause]. *)
Definition CmdPause (flags : MiscCmd.DoCommandFlags) (mode : PauseModeArg)
    (pause : bool) (st : PauseState) : CommandCost * PauseState :=
  match mode with
  | Mode_invalid _ | Mode CommandDuringPause => (CMD_ERROR, st)
  | Mode m =>
      if match m with
         | Join | ActiveClients => negb (_networking st)
         | _ => false
         end
      then (CMD_ERROR, st)
      else if flags MiscCmd.Execute
      then (CommandCost_default, CmdPause_execute m pause st)
      else (CommandCost_default, st)
  end.

(** A multiple of the loan step that is not negative. *)
Definition loan_in_steps (step loan : Z) : Prop :=
  0 <= loan /\ Z.rem loan step = 0.

(** A company record within the range of [Money]. *)
Definition company_in_range (c : MiscCmd.Company) : Prop :=
  MiscCmd.is_int64 (MiscCmd.money c) /\
  MiscCmd.is_int64 (MiscCmd.current_loan c).

(** The money of the current company, as what a command may spend. *)
Definition money_of_current_company (g : MiscCmd.Game) : Z :=
  match MiscCmd.companies g !! MiscCmd._current_company g with
  | Some c => MiscCmd.money c
  | None => MiscCmd.INT64_MAX
  end.

(** The game of the examples: company 0 with 100000 in the bank and a loan
    of 200000 out of 500000. *)
Definition small_company : MiscCmd.Company :=
  MiscCmd.mkCompany 100000 200000 500000.

Definition small_game : MiscCmd.Game :=
  MiscCmd.mkGame {[ 0 := small_company ]} 0 [].

End MiscCmdMore.

(** ** Generic feature callbacks: newgrf_generic.cpp *)

Module NewGRFGeneric.

(** What the callback code reads of a [GRFFile]. *)
Record GRFFile : Type := mkGRFFile {
  grfid : Z;
  grf_version : Z
}.

#[export] Instance GRFFile_eq_dec : EqDecision GRFFile.
Proof. solve_decision. Defined.

(** [struct GenericCallback]; the sprite group is known by its address. *)
Record GenericCallback : Type := mkGenericCallback {
  file : GRFFile;
  group : Z
}.

(** The fields of [GenericScopeResolver]. *)
Record GenericScopeResolver : Type := mkGenericScopeResolver {
  cargo_type : Z;
  default_selection : Z;
  src_industry : Z;
  dst_industry : Z;
  distance : Z;
  event : Z;
  count : Z;
  station_size : Z;
  feature : Z;
  ai_callback : bool
}.

(** [GenericResolverObject] with the fields of [ResolverObject] the callback
    code writes. *)
Record GenericResolverObject : Type := mkGenericResolverObject {
  callback : Z;
  grffile : option GRFFile;
  root_spritegroup : option Z;
  callback_param1 : Z;
  generic_scope : GenericScopeResolver
}.

(** The array [_gcl] of callback lists, one per feature, and the messages
    written with [GrfMsg] (the unsupported features, oldest first). *)
Record Callbacks : Type := mkCallbacks {
  _gcl : list (list GenericCallback);
  unsupported : list Z
}.

(** [ResetGenericCallbacks]. *)
Definition ResetGenericCallbacks (st : Callbacks) : Callbacks :=
  mkCallbacks (List.map (fun _ => []) (_gcl st)) (unsupported st).

(** [AddGenericCallback]; [feature] is a [uint8_t]. *)
Definition AddGenericCallback (feature : Z) (file : GRFFile) (group : Z)
    (st : Callbacks) : Callbacks :=
  if Z.of_nat (length (_gcl st)) <=? feature
  then mkCallbacks (_gcl st) (unsupported st ++ [feature])
  else mkCallbacks
         (alter (fun l => mkGenericCallback file group :: l)
                (Z.to_nat feature) (_gcl st))
         (unsupported st).

Section Resolve.

(** Declared outside the sources: the failure value, the resolver run on a
    prepared object (it may change the object), the substitute type of an
    industry, the three special industry types, the callback ID. *)
Variable CALLBACK_FAILED : Z.
Variable ResolveCallback : GenericResolverObject -> Z * GenericResolverObject.
Variable subst_id : Z -> Z.
Variable IT_AI_UNKNOWN : Z.
Variable IT_AI_TOWN : Z.
Variable IT_INVALID : Z.
Variable CBID_GENERIC_AI_PURCHASE_SELECTION : Z.

(** The three assignments at the head of the loop body. *)
Definition prepare (it : GenericCallback) (param1_grfv7 param1_grfv8 : Z)
    (object : GenericResolverObject) : GenericResolverObject :=
  mkGenericResolverObject (callback object) (Some (file it)) (Some (group it))
    (if 8 <=? grf_version (file it) then param1_grfv8 else param1_grfv7)
    (generic_scope object).

(** The loop of [GetGenericCallbackResult] over one callback list. *)
Fixpoint resolve_first (l : list GenericCallback)
    (param1_grfv7 param1_grfv8 : Z) (object : GenericResolverObject)
    : (option GRFFile * Z) * GenericResolverObject :=
  match l with
  | [] => ((None, CALLBACK_FAILED), object)
  | it :: l' =>
      let '(result, object) :=
        ResolveCallback (prepare it param1_grfv7 param1_grfv8 object) in
      if result =? CALLBACK_FAILED
      then resolve_first l' param1_grfv7 param1_grfv8 object
      else ((Some (file it), result), object)
  end.

(** [GetGenericCallbackResult]; [None] when the assertion on [feature]
    fails. The object is passed by reference and handed back. *)
Definition GetGenericCallbackResult (feature : Z)
    (object : GenericResolverObject) (param1_grfv7 param1_grfv8 : Z)
    (st : Callbacks)
    : option ((option GRFFile * Z) * GenericResolverObject) :=
  if Z.of_nat (length (_gcl st)) <=? feature then None
  else
    l ← _gcl st !! Z.to_nat feature;
    Some (resolve_first l param1_grfv7 param1_grfv8 object).




End Resolve.

End NewGRFGeneric.

(** ** Refit orders and cargo capacity: autoreplace_cmd.cpp *)

Module Autoreplace.

(** What the refit checks read of an [Order]. *)
Record Order : Type := mkOrder {
  IsRefit : bool;
  IsAutoRefit : bool;
  GetRefitCargo : Z
}.

Inductive VehicleType : Type := VEH_TRAIN | VEH_ROAD | VEH_SHIP | VEH_AIRCRAFT.

#[export] Instance VehicleType_eq_dec : EqDecision VehicleType.
Proof. solve_decision. Defined.

(** What the refit checks read of a [Vehicle]: its type, its engine, and
    its order list ([None] for a null pointer). *)
Record OrderedVehicle : Type := mkOrderedVehicle {
  type : VehicleType;
  engine_type : Z;
  orders : option (list Order)
}.

(** [HasBit(mask, bit)] on a cargo mask: [(mask & (1 << bit)) != 0], where
    [CargoTypes] is a 64-bit mask and the index a [uint8_t]. For an index
    below 64 this is the bit itself. A larger index does reach the test (an
    auto-refit order carries the cargo 0xFD, and
    [GetIncompatibleRefitOrderIdForAutoreplace] does not skip such orders);
    the shift of a 64-bit value then takes the index modulo 64, so 0xFD
    tests bit 61. *)
Definition HasBit (mask : Z) (bit : Z) : bool := Z.testbit mask (bit mod 64).

Section Refit.

(** Declared outside the sources: the refit masks of an engine, and the
    front of a vehicle chain. *)
Variable GetUnionOfArticulatedRefitMasks : Z -> bool -> Z.
Variable First : OrderedVehicle -> OrderedVehicle.

(** [EnginesHaveCargoInCommon]. *)
Definition EnginesHaveCargoInCommon (engine_a engine_b : Z) : bool :=
  let available_cargoes_a := GetUnionOfArticulatedRefitMasks engine_a true in
  let available_cargoes_b := GetUnionOfArticulatedRefitMasks engine_b true in
  (available_cargoes_a =? 0) || (available_cargoes_b =? 0)
  || negb (Z.land available_cargoes_a available_cargoes_b =? 0).

(** The vehicle whose orders count: the front of a train, else the vehicle. *)
Definition order_holder (v : OrderedVehicle) : OrderedVehicle :=
  if decide (type v = VEH_TRAIN) then First v else v.

(** The loop of [VerifyAutoreplaceRefitForOrders]. *)
Fixpoint verify_orders (mask_a mask_b : Z) (os : list Order) : bool :=
  match os with
  | [] => true
  | o :: os' =>
      if negb (IsRefit o) || IsAutoRefit o then verify_orders mask_a mask_b os'
      else if negb (HasBit mask_a (GetRefitCargo o))
      then verify_orders mask_a mask_b os'
      else if negb (HasBit mask_b (GetRefitCargo o)) then false
      else verify_orders mask_a mask_b os'
  end.

(** [VerifyAutoreplaceRefitForOrders]; a vehicle without an order list has
    no orders to go through. *)
Definition VerifyAutoreplaceRefitForOrders (v : OrderedVehicle)
    (new_engine : Z) : bool :=
  let union_refit_mask_a :=
    GetUnionOfArticulatedRefitMasks (engine_type v) false in
  let union_refit_mask_b := GetUnionOfArticulatedRefitMasks new_engine false in
  verify_orders union_refit_mask_a union_refit_mask_b
    (default [] (orders (order_holder v))).

(** The loop of [GetIncompatibleRefitOrderIdForAutoreplace], from index
    [i] on. *)
Fixpoint first_incompatible (mask : Z) (i : Z) (os : list Order) : Z :=
  match os with
  | [] => -1
  | o :: os' =>
      if negb (IsRefit o) then first_incompatible mask (i + 1) os'
      else if negb (HasBit mask (GetRefitCargo o)) then i
      else first_incompatible mask (i + 1) os'
  end.

(** [GetIncompatibleRefitOrderIdForAutoreplace]. *)
Definition GetIncompatibleRefitOrderIdForAutoreplace (v : OrderedVehicle)
    (new_engine : Z) : Z :=
  let union_refit_mask := GetUnionOfArticulatedRefitMasks new_engine false in
  match orders (order_holder v) with
  | None => -1
  | Some os => first_incompatible union_refit_mask 0 os
  end.

End Refit.

End Autoreplace.

(** ** Cargo capacity of a chain: autoreplace_cmd.cpp *)

Module AutoreplaceCargo.

(** What [CheckCargoCapacity] reads and writes of a vehicle: the cargo type,
    the capacity, and the amount its cargo list holds
    ([cargo.TotalCount()]). *)
Record Vehicle : Type := mkVehicle {
  cargo_type : Z;
  cargo_cap : Z;
  cargo_count : Z
}.

Definition set_count (n : Z) (v : Vehicle) : Vehicle :=
  mkVehicle (cargo_type v) (cargo_cap v) n.

(** [src->cargo.Shift(amount, &dest->cargo)] on the amounts: [amount] leaves
    the vehicle at [src] and arrives at [dest]. The cargo list class is not
    among the sources; the amount asked for is never more than the source
    holds. *)
Definition Shift (amount : Z) (src dest : nat) (chain : list Vehicle)
    : list Vehicle :=
  alter (fun v => set_count (cargo_count v + amount) v) dest
    (alter (fun v => set_count (cargo_count v - amount) v) src chain).

(** [src->cargo.Truncate(amount)] on the amounts. *)
Definition Truncate (amount : Z) (src : nat) (chain : list Vehicle)
    : list Vehicle :=
  alter (fun v => set_count (cargo_count v - amount) v) src chain.

(** One pass of the inner loop, at the vehicle [dest]; the loop ends as soon
    as [to_spread] is zero. *)
Definition spread_step (src : nat) (st : list Vehicle * Z) (dest : nat)
    : list Vehicle * Z :=
  let '(chain, to_spread) := st in
  if to_spread =? 0 then st
  else
    match chain !! src, chain !! dest with
    | Some s, Some d =>
        if (cargo_cap d <=? cargo_count d)
           || negb (cargo_type d =? cargo_type s)
        then st
        else
          let amount := Z.min to_spread (cargo_cap d - cargo_count d) in
          (Shift amount src dest chain, to_spread - amount)
    | _, _ => st
    end.

(** One pass of the outer loop, at the vehicle [src]. *)
Definition check_step (chain : list Vehicle) (src : nat) : list Vehicle :=
  match chain !! src with
  | None => chain
  | Some s =>
      if cargo_count s <=? cargo_cap s then chain
      else
        let to_spread := cargo_count s - cargo_cap s in
        let chain' :=
          (fold_left (spread_step src) (seq 0 (length chain))
                     (chain, to_spread)).1 in
        match chain' !! src with
        | Some s' =>
            if cargo_cap s' <? cargo_count s'
            then Truncate (cargo_count s' - cargo_cap s') src chain'
            else chain'
        | None => chain'
        end
  end.

(** [CheckCargoCapacity] on the chain that starts at [v] (the empty chain
    for a null pointer). *)
Definition CheckCargoCapacity (chain : list Vehicle) : list Vehicle :=
  fold_left check_step (seq 0 (length chain)) chain.

(** The vehicle holds no more than its capacity. *)
Definition fits (v : Vehicle) : Prop := cargo_count v <= cargo_cap v.

(** Sum of [g] over a chain. *)
Definition sumZ (g : Vehicle -> Z) (chain : list Vehicle) : Z :=
  foldr (fun v acc => g v + acc) 0 chain.

(** The amount of cargo of type [t] on the chain, and the room for it. *)
Definition total (t : Z) (chain : list Vehicle) : Z :=
  sumZ (fun v => if cargo_type v =? t then cargo_count v else 0) chain.

Definition capacity (t : Z) (chain : list Vehicle) : Z :=
  sumZ (fun v => if cargo_type v =? t then cargo_cap v else 0) chain.

(** Two chains of the same vehicles, up to the amounts carried. *)
Definition same_vehicles (a b : list Vehicle) : Prop :=
  List.map cargo_type a = List.map cargo_type b /\
  List.map cargo_cap a = List.map cargo_cap b.

End AutoreplaceCargo.

(** ** What [CheckCargoCapacity] keeps *)

Module CargoProps.
Import AutoreplaceCargo.

(** Every vehicle of [c'] has the type and capacity it has in [c], and
    holds an amount between what it held and its capacity. *)
Definition moved_within (c c' : list Vehicle) : Prop :=
  length c' = length c /\
  forall (k : nat) v v', c !! k = Some v -> c' !! k = Some v' ->
    cargo_type v' = cargo_type v /\ cargo_cap v' = cargo_cap v /\
    Z.min (cargo_count v) (cargo_cap v) <= cargo_count v'
      <= Z.max (cargo_count v) (cargo_cap v).

(** [moved_within], and per cargo type nothing is gained, and nothing is
    lost where the type's capacity suffices. *)
Definition settles (c c' : list Vehicle) : Prop :=
  moved_within c c' /\
  forall t, total t c' <= total t c /\
            (total t c <= capacity t c -> total t c' = total t c).

(** Invariant of the inner loop of [CheckCargoCapacity] for the vehicle [s]
    at [i] of the chain [c], before the vehicle at [j] is looked at. *)
Definition inner_inv (c : list Vehicle) (i : nat) (s : Vehicle) (j : nat)
    (st : list Vehicle * Z) : Prop :=
  length st.1 = length c /\
  0 <= st.2 /\
  (exists s1, st.1 !! i = Some s1 /\ cargo_type s1 = cargo_type s /\
              cargo_cap s1 = cargo_cap s /\
              cargo_count s1 = cargo_cap s + st.2 /\
              st.2 <= cargo_count s - cargo_cap s) /\
  (forall (k : nat) v v', k <> i -> c !! k = Some v -> st.1 !! k = Some v' ->
     cargo_type v' = cargo_type v /\ cargo_cap v' = cargo_cap v /\
     cargo_count v <= cargo_count v'
       <= Z.max (cargo_count v) (cargo_cap v)) /\
  (forall t, total t st.1 = total t c) /\
  (st.2 = 0 \/
   forall (k : nat) v', (k < j)%nat -> k <> i -> st.1 !! k = Some v' ->
     cargo_type v' = cargo_type s -> cargo_cap v' <= cargo_count v').

End CargoProps.

(** * Properties *)

(** ** Vocabulary of the statements *)

Module Props.

Import NetworkClient.

(** The enumerators [HandlePacket] has a case for. *)
Definition has_case (type : PacketGameType) : bool :=
  match type with
  | ClientUnused | ServerUnused => false
  | _ => true
  end.

(** The largest underlying value among the enumerators. *)
Definition last_value : Z :=
  fold_right Z.max 0 (List.map PacketGameType_value PacketGameType_members).

(** A terminal sentinel: an enumerator after all others that no case of the
    dispatcher accepts. *)
Definition is_terminal_sentinel (type : PacketGameType) : Prop :=
  PacketGameType_value type = last_value /\ has_case type = false.

(** The virtual close only adds to the trace. *)
Definition close_extends_trace {D} (cls : GameSocketClass D) : Prop :=
  forall status s,
    exists evs, trace (CloseConnection_status cls status s).2 = trace s ++ evs.

(** The virtual close hands back the status it was given and leaves the
    globals alone, as its documentation says. *)
Definition close_returns_given {D} (cls : GameSocketClass D) : Prop :=
  forall status s,
    (CloseConnection_status cls status s).1 = status /\
    _networking (CloseConnection_status cls status s).2 = _networking s /\
    _switch_mode (CloseConnection_status cls status s).2 = _switch_mode s.

(** Between [s] and [s'] the virtual close was called. *)
Definition closed_between {D} (s s' : Conn D) : Prop :=
  exists evs status,
    trace s' = trace s ++ evs /\ EvCloseConnection status ∈ evs.

(** The client is back at the main menu with networking switched off. *)
Definition dropped_to_menu {D} (s : Conn D) : Prop :=
  _networking s = false /\ _switch_mode s = SM_MENU.

(** Handling [p] in [s] reports a malformed packet and closes. *)
Definition malformed_and_closed {D} (cls : GameSocketClass D) (p : Packet)
    (s : Conn D) : Prop :=
  (HandlePacket cls p s).1 = NETWORK_RECV_STATUS_MALFORMED_PACKET /\
  closed_between s (HandlePacket cls p s).2.

(** The state after handling all of [ps], oldest first. *)
Definition handle_in_order {D} (cls : GameSocketClass D) (ps : list Packet)
    (s : Conn D) : Conn D :=
  fold_left (fun s p => (HandlePacket cls p s).2) ps s.

(** Every packet of [ps], handled in order from [s], returns OKAY. *)
Fixpoint all_okay {D} (cls : GameSocketClass D) (ps : list Packet)
    (s : Conn D) : Prop :=
  match ps with
  | [] => True
  | p :: ps' =>
      (HandlePacket cls p s).1 = NETWORK_RECV_STATUS_OKAY /\
      all_okay cls ps' (HandlePacket cls p s).2
  end.

(** A client class for running the loop on concrete packets: an overridden
    handler counts the packet in [token] when its first body byte is zero
    and reports a desync otherwise. *)
Definition picky_client : GameSocketClass ClientFields :=
  ClientNetworkGameSocketHandler
    (fun _ p s =>
       match packet_body p with
       | 0 :: _ =>
           (NETWORK_RECV_STATUS_OKAY,
            mkConn (_network_server s) (_networking s) (_switch_mode s)
                   (trace s)
                   (mkClientFields (status (derived s)) (token (derived s) + 1)))
       | _ => (NETWORK_RECV_STATUS_DESYNC, s)
       end)
    close_returns_status.

(** What every heap reached by allowed operations satisfies: the vector
    owns each handler once, and every handler it owns is alive and marked. *)
Definition heap_inv (h : Deferred.Heap) : Prop :=
  NoDup (Deferred._deferred_deletions h) /\
  forall p, p ∈ Deferred._deferred_deletions h ->
            Deferred.IsPendingDeletion p h = Some true.


(** The company of the loan examples: 5000 short of [Money::max()]. *)
Definition rich_company : MiscCmd.Company :=
  MiscCmd.mkCompany (MiscCmd.INT64_MAX - 5000) 0 500000.

Definition rich_game : MiscCmd.Game :=
  MiscCmd.mkGame {[ 0 := rich_company ]} 0 [].

End Props.
Import Props.

(** ** Vocabulary of the further statements *)

Module MoreProps.

(** The packet types a client sends to the server. *)
Definition client_to_server (type : PacketGameType) : bool :=
  match type with
  | ClientJoin | ClientUnused | ClientGameInfo | ClientAuthenticationResponse
  | ClientIdentify | ClientNewGRFsChecked | ClientGetMap | ClientMapOk
  | ClientAck | ClientCommand | ClientChat | ClientRemoteConsoleCommand
  | ClientMove | ClientSetName | ClientQuit | ClientError => true
  | _ => false
  end.

(** The state of a coordinator connection after handling all of [ps]. *)
Definition c_handle_in_order {D} (cls : TcpCoordinator.CoordinatorClass D)
    (ps : list Packet) (s : TcpCoordinator.CConn D) : TcpCoordinator.CConn D :=
  fold_left (fun s p => (TcpCoordinator.HandlePacket cls p s).2) ps s.

(** Every packet of [ps], handled in order from [s], asks for more. *)
Fixpoint all_continue {D} (cls : TcpCoordinator.CoordinatorClass D)
    (ps : list Packet) (s : TcpCoordinator.CConn D) : Prop :=
  match ps with
  | [] => True
  | p :: ps' =>
      (TcpCoordinator.HandlePacket cls p s).1 = true /\
      all_continue cls ps' (TcpCoordinator.HandlePacket cls p s).2
  end.

(** On a heap reached by allowed operations the pending mark and the
    deferred list say the same. *)
Definition pending_iff_deferred (h : Deferred.Heap) : Prop :=
  forall p, Deferred.IsPendingDeletion p h = Some true <->
            p ∈ Deferred._deferred_deletions h.

End MoreProps.
Import MoreProps.

(** ** Dispatch helpers *)

Lemma trace_emit {D} (e : Event) (s : Conn D) : trace (emit e s) = trace s ++ [e].
Proof. reflexivity. Qed.

Lemma PacketGameType_of_byte_value (t : PacketGameType) :
  PacketGameType_of_byte (PacketGameType_value t) = Some t.
Proof. destruct t; reflexivity. Qed.

Lemma PacketGameType_of_byte_Some (b : Z) (t : PacketGameType) :
  PacketGameType_of_byte b = Some t -> PacketGameType_value t = b.
Proof.
  unfold PacketGameType_of_byte. intros H.
  apply List.find_some in H as [_ H]. lia.
Qed.

Lemma PacketGameType_value_range (t : PacketGameType) :
  0 <= PacketGameType_value t <= 43.
Proof. destruct t; simpl; lia. Qed.

Lemma PacketGameType_of_byte_None (b : Z) :
  b < 0 \/ 43 < b -> PacketGameType_of_byte b = None.
Proof.
  intros Hb. destruct (PacketGameType_of_byte b) as [t|] eqn:E; [|done].
  apply PacketGameType_of_byte_Some in E.
  pose proof (PacketGameType_value_range t). lia.
Qed.

Lemma CloseConnection_calls_close {D} (cls : GameSocketClass D) (s : Conn D) :
  close_extends_trace cls -> closed_between s (CloseConnection cls s).2.
Proof.
  intros Hext. unfold CloseConnection, call_CloseConnection.
  destruct (negb (_network_server s) && _networking s).
  - destruct (Hext NETWORK_RECV_STATUS_CLIENT_QUIT
      (emit (EvCloseConnection NETWORK_RECV_STATUS_CLIENT_QUIT)
         (emit EvShowErrorMessage (set_networking false
            (set_switch_mode SM_MENU (emit EvEmergencySave s))))))
      as [evs Hevs].
    exists ([EvEmergencySave; EvShowErrorMessage;
             EvCloseConnection NETWORK_RECV_STATUS_CLIENT_QUIT] ++ evs),
           NETWORK_RECV_STATUS_CLIENT_QUIT.
    split.
    + rewrite Hevs. simpl. rewrite <- !app_assoc. reflexivity.
    + set_solver.
  - destruct (Hext NETWORK_RECV_STATUS_CONNECTION_LOST
      (emit (EvCloseConnection NETWORK_RECV_STATUS_CONNECTION_LOST) s))
      as [evs Hevs].
    exists (EvCloseConnection NETWORK_RECV_STATUS_CONNECTION_LOST :: evs),
           NETWORK_RECV_STATUS_CONNECTION_LOST.
    split.
    + rewrite Hevs. simpl. rewrite <- app_assoc. reflexivity.
    + set_solver.
Qed.

Lemma HandlePacket_default_closes {D} (cls : GameSocketClass D) (tag : Z)
    (s : Conn D) :
  close_extends_trace cls ->
  (HandlePacket_default cls tag s).1 = NETWORK_RECV_STATUS_MALFORMED_PACKET /\
  closed_between s (HandlePacket_default cls tag s).2.
Proof.
  intros Hext. unfold HandlePacket_default.
  pose proof (CloseConnection_calls_close cls (emit (EvDebugInvalidType tag) s) Hext)
    as (evs & status & Htr & Hin).
  destruct (CloseConnection cls (emit (EvDebugInvalidType tag) s)) as [r s'].
  simpl in *. split; [reflexivity|].
  exists (EvDebugInvalidType tag :: evs), status. split.
  - rewrite Htr. rewrite <- app_assoc. reflexivity.
  - set_solver.
Qed.

Lemma HandlePacket_no_case {D} (cls : GameSocketClass D) (p : Packet)
    (s : Conn D) :
  match PacketGameType_of_byte (packet_tag p) with
  | Some type => has_case type = false
  | None => True
  end ->
  HandlePacket cls p s = HandlePacket_default cls (packet_tag p) s.
Proof.
  unfold HandlePacket, Recv_uint8.
  destruct (PacketGameType_of_byte (packet_tag p)) as [t|]; [|done].
  destruct t; simpl; intros H; try discriminate H; reflexivity.
Qed.

Lemma HandlePacket_case {D} (cls : GameSocketClass D) (p : Packet)
    (s : Conn D) (type : PacketGameType) :
  PacketGameType_of_byte (packet_tag p) = Some type ->
  has_case type = true ->
  HandlePacket cls p s = Receive cls type p s.
Proof.
  unfold HandlePacket, Recv_uint8. intros ->.
  destruct type; simpl; intros H; try discriminate H; reflexivity.
Qed.

(** ** The dispatcher rejects what it has no handler for *)

(** C1, as stated, fails: [ClientJoin] (tag 2) is an enumerator the client
    class does not override, so it maps to the base-class handler; handling
    it reports a malformed packet, but the dispatcher does not close the
    connection. *)
Lemma HandlePacket_stub_leaves_connection_open :
  PacketGameType_of_byte 2 = Some ClientJoin /\
  Receive_override NetworkClient.sample_client ClientJoin = None /\
  (HandlePacket NetworkClient.sample_client (mkPacket 2 [])
     (NetworkClient.playing_client NetworkClient.STATUS_ACTIVE)).1
    = NETWORK_RECV_STATUS_MALFORMED_PACKET /\
  ~ malformed_and_closed NetworkClient.sample_client (mkPacket 2 [])
      (NetworkClient.playing_client NetworkClient.STATUS_ACTIVE).
Proof.
  repeat split.
  intros [_ (evs & status & Htr & Hin)].
  simpl in Htr. subst evs.
  apply list_elem_of_singleton in Hin. discriminate Hin.
Qed.

(** C1 (amended): a packet whose tag is no enumerator of [PacketGameType],
    or one of the two enumerators without a case, makes [HandlePacket]
    report NETWORK_RECV_STATUS_MALFORMED_PACKET and close the connection; a
    packet whose tag maps to the base-class handler makes it report
    NETWORK_RECV_STATUS_MALFORMED_PACKET after logging the packet, and the
    dispatcher makes no other call. *)
Theorem HandlePacket_rejects_unhandled {D} (cls : GameSocketClass D)
    (p : Packet) (s : Conn D) :
  close_extends_trace cls ->
  (match PacketGameType_of_byte (packet_tag p) with
   | Some type => has_case type = false
   | None => True
   end -> malformed_and_closed cls p s) /\
  (forall type,
     PacketGameType_of_byte (packet_tag p) = Some type ->
     has_case type = true ->
     Receive_override cls type = None ->
     HandlePacket cls p s =
       (NETWORK_RECV_STATUS_MALFORMED_PACKET, emit (EvDebugIllegalType type) s)).
Proof.
  intros Hext. split.
  - intros Hno. unfold malformed_and_closed.
    rewrite (HandlePacket_no_case cls p s Hno).
    by apply HandlePacket_default_closes.
  - intros type Htag Hcase Hbase.
    rewrite (HandlePacket_case cls p s type Htag Hcase).
    unfold Receive. rewrite Hbase. reflexivity.
Qed.

Lemma HandlePacket_rejects_unhandled_witness :
  malformed_and_closed NetworkClient.sample_client (mkPacket 200 [7])
    (NetworkClient.playing_client NetworkClient.STATUS_MAP) /\
  HandlePacket NetworkClient.sample_client (mkPacket 29 [1; 2])
    (NetworkClient.playing_client NetworkClient.STATUS_ACTIVE) =
    (NETWORK_RECV_STATUS_MALFORMED_PACKET,
     emit (EvDebugIllegalType ClientCommand)
       (NetworkClient.playing_client NetworkClient.STATUS_ACTIVE)).
Proof.
  split.
  - apply (HandlePacket_rejects_unhandled NetworkClient.sample_client
             (mkPacket 200 [7])
             (NetworkClient.playing_client NetworkClient.STATUS_MAP)).
    + intros status s. exists []. simpl. rewrite app_nil_r. reflexivity.
    + simpl. exact I.
  - apply (HandlePacket_rejects_unhandled NetworkClient.sample_client
             (mkPacket 29 [1; 2])
             (NetworkClient.playing_client NetworkClient.STATUS_ACTIVE)).
    + intros status s. exists []. simpl. rewrite app_nil_r. reflexivity.
    + reflexivity.
    + reflexivity.
    + reflexivity.
Defined.

(** ** The receive loop of a game connection *)

Lemma ReceivePackets_all_okay {D} (cls : GameSocketClass D)
    (queue : list Packet) (s : Conn D) :
  all_okay cls queue s ->
  ReceivePackets cls queue s =
    (NETWORK_RECV_STATUS_OKAY, handle_in_order cls queue s, []).
Proof.
  revert s. induction queue as [|p queue IH]; intros s Hok; simpl.
  - reflexivity.
  - destruct Hok as [Hp Hrest].
    destruct (HandlePacket cls p s) as [res s'] eqn:E. simpl in *. subst res.
    rewrite decide_True by reflexivity.
    rewrite (IH s' Hrest). reflexivity.
Qed.

Lemma ReceivePackets_first_failure {D} (cls : GameSocketClass D)
    (pre : list Packet) (p : Packet) (post : list Packet) (s : Conn D) :
  all_okay cls pre s ->
  (HandlePacket cls p (handle_in_order cls pre s)).1
    <> NETWORK_RECV_STATUS_OKAY ->
  ReceivePackets cls (pre ++ p :: post) s =
    ((HandlePacket cls p (handle_in_order cls pre s)).1,
     handle_in_order cls (pre ++ [p]) s, post).
Proof.
  revert s. induction pre as [|q pre IH]; intros s Hok Hbad; simpl in *.
  - unfold handle_in_order in *. simpl in *.
    destruct (HandlePacket cls p s) as [res s'] eqn:E. simpl in *.
    rewrite decide_False by assumption. reflexivity.
  - destruct Hok as [Hq Hrest].
    unfold handle_in_order in *. simpl in *.
    destruct (HandlePacket cls q s) as [res s'] eqn:E. simpl in *. subst res.
    rewrite decide_True by reflexivity.
    apply IH; assumption.
Qed.

(** C2: [ReceivePackets] handles the buffered packets oldest first. It stops
    at the first packet whose handler returns something other than OKAY and
    returns that status, leaving every later packet unhandled in the queue;
    when every handler returns OKAY, or nothing is buffered, it handles the
    whole queue and returns OKAY. *)
Theorem ReceivePackets_in_order_until_failure {D} (cls : GameSocketClass D)
    (s : Conn D) :
  (forall pre p post,
     all_okay cls pre s ->
     (HandlePacket cls p (handle_in_order cls pre s)).1
       <> NETWORK_RECV_STATUS_OKAY ->
     ReceivePackets cls (pre ++ p :: post) s =
       ((HandlePacket cls p (handle_in_order cls pre s)).1,
        handle_in_order cls (pre ++ [p]) s, post)) /\
  (forall queue,
     all_okay cls queue s ->
     ReceivePackets cls queue s =
       (NETWORK_RECV_STATUS_OKAY, handle_in_order cls queue s, [])) /\
  ReceivePackets cls [] s = (NETWORK_RECV_STATUS_OKAY, s, []).
Proof.
  split; [|split].
  - intros pre p post. apply ReceivePackets_first_failure.
  - intros queue. apply ReceivePackets_all_okay.
  - reflexivity.
Qed.

Lemma ReceivePackets_in_order_until_failure_witness :
  ReceivePackets picky_client
    [mkPacket 26 [0]; mkPacket 28 [1]; mkPacket 26 [0]]
    (NetworkClient.playing_client NetworkClient.STATUS_ACTIVE) =
    (NETWORK_RECV_STATUS_DESYNC,
     mkConn false true SM_NONE []
       (NetworkClient.mkClientFields NetworkClient.STATUS_ACTIVE 1),
     [mkPacket 26 [0]]) /\
  ReceivePackets picky_client [mkPacket 26 [0]; mkPacket 30 [0; 9]]
    (NetworkClient.playing_client NetworkClient.STATUS_ACTIVE) =
    (NETWORK_RECV_STATUS_OKAY,
     mkConn false true SM_NONE []
       (NetworkClient.mkClientFields NetworkClient.STATUS_ACTIVE 2),
     []).
Proof.
  split.
  - apply (proj1 (ReceivePackets_in_order_until_failure picky_client
             (NetworkClient.playing_client NetworkClient.STATUS_ACTIVE))
             [mkPacket 26 [0]] (mkPacket 28 [1]) [mkPacket 26 [0]]).
    + simpl. split; [reflexivity | exact I].
    + simpl. discriminate.
  - apply (proj1 (proj2 (ReceivePackets_in_order_until_failure picky_client
             (NetworkClient.playing_client NetworkClient.STATUS_ACTIVE)))
             [mkPacket 26 [0]; mkPacket 30 [0; 9]]).
    simpl. repeat split.
Defined.

(** ** The tag enumerations and the count value *)

(** C5, as stated, fails for [PacketGameType]: the enumeration has no
    terminal sentinel. Its last enumerator is [ServerErrorQuit] (43), which
    the dispatcher hands to a handler. *)
Lemma PacketGameType_has_no_sentinel :
  last_value = 43 /\
  PacketGameType_value ServerErrorQuit = last_value /\
  has_case ServerErrorQuit = true /\
  ~ exists type, is_terminal_sentinel type.
Proof.
  repeat split.
  intros [type [Hlast Hcase]].
  destruct type; vm_compute in Hlast; vm_compute in Hcase; discriminate.
Qed.

Lemma PacketGameType_members_complete (t : PacketGameType) :
  t ∈ PacketGameType_members.
Proof. destruct t; unfold PacketGameType_members; set_solver. Qed.

(** C5 (amended): [PacketGameType] has 44 enumerators, valued 0 to 43, and
    none of them is a count sentinel. A received tag of 44 (the count) or
    more names no enumerator and is invalid on the wire: [HandlePacket]
    closes the connection and reports a malformed packet. In the rendezvous
    protocol a received tag that is none of the dispatched members makes
    [HandlePacket] log it and return false. *)
Theorem count_value_is_invalid_on_the_wire {D D'} (cls : GameSocketClass D)
    (ccls : TcpCoordinator.CoordinatorClass D') (tag : Z) (body : list Z)
    (s : Conn D) (cs : TcpCoordinator.CConn D') :
  length PacketGameType_members = 44%nat /\
  (forall t, t ∈ PacketGameType_members /\ 0 <= PacketGameType_value t < 44 /\
             PacketGameType_of_byte (PacketGameType_value t) = Some t) /\
  (44 <= tag -> close_extends_trace cls ->
     PacketGameType_of_byte tag = None /\
     malformed_and_closed cls (mkPacket tag body) s) /\
  (TcpCoordinator.cast ccls tag = None ->
     TcpCoordinator.HandlePacket ccls (mkPacket tag body) cs =
       (false, TcpCoordinator.cemit (TcpCoordinator.CDebugInvalidType tag) cs)).
Proof.
  split; [reflexivity|]. split; [|split].
  - intros t. split; [apply PacketGameType_members_complete|]. split.
    + pose proof (PacketGameType_value_range t). lia.
    + apply PacketGameType_of_byte_value.
  - intros Htag Hext.
    assert (Hnone : PacketGameType_of_byte tag = None)
      by (apply PacketGameType_of_byte_None; lia).
    split; [exact Hnone|].
    unfold malformed_and_closed.
    rewrite HandlePacket_no_case by (simpl; rewrite Hnone; exact I).
    by apply HandlePacket_default_closes.
  - intros Hcast. unfold TcpCoordinator.HandlePacket, Recv_uint8. simpl.
    rewrite Hcast. reflexivity.
Qed.

Lemma count_value_is_invalid_on_the_wire_witness :
  (PacketGameType_of_byte 44 = None /\
   malformed_and_closed NetworkClient.sample_client (mkPacket 44 [])
     (NetworkClient.playing_client NetworkClient.STATUS_ACTIVE)) /\
  TcpCoordinator.HandlePacket TcpCoordinator.sample_coordinator
    (mkPacket 17 []) (TcpCoordinator.mkCConn [] tt) =
    (false, TcpCoordinator.mkCConn [TcpCoordinator.CDebugInvalidType 17] tt).
Proof.
  pose proof (count_value_is_invalid_on_the_wire NetworkClient.sample_client
                TcpCoordinator.sample_coordinator 44 []
                (NetworkClient.playing_client NetworkClient.STATUS_ACTIVE)
                (TcpCoordinator.mkCConn [] tt)) as (_ & _ & Hgame & _).
  pose proof (count_value_is_invalid_on_the_wire NetworkClient.sample_client
                TcpCoordinator.sample_coordinator 17 []
                (NetworkClient.playing_client NetworkClient.STATUS_ACTIVE)
                (TcpCoordinator.mkCConn [] tt)) as (_ & _ & _ & Hcoord).
  split.
  - apply Hgame.
    + lia.
    + intros status s. exists []. simpl. rewrite app_nil_r. reflexivity.
  - apply Hcoord. reflexivity.
Defined.

(** ** Losing the connection *)

(** What [CloseConnection(bool)] does around the call of the virtual close,
    for any class whose close hands back its status, leaves the globals
    alone and only adds to the trace. *)
Lemma CloseConnection_bool_effect {D} (cls : GameSocketClass D)
    (s : Conn D) :
  close_returns_given cls ->
  close_extends_trace cls ->
  (_network_server s = false -> _networking s = true ->
     (CloseConnection cls s).1 = NETWORK_RECV_STATUS_CLIENT_QUIT /\
     dropped_to_menu (CloseConnection cls s).2 /\
     exists evs,
       trace (CloseConnection cls s).2 =
         trace s ++ [EvEmergencySave; EvShowErrorMessage;
                     EvCloseConnection NETWORK_RECV_STATUS_CLIENT_QUIT] ++ evs) /\
  (_network_server s = true \/ _networking s = false ->
     (CloseConnection cls s).1 = NETWORK_RECV_STATUS_CONNECTION_LOST /\
     _networking (CloseConnection cls s).2 = _networking s /\
     exists evs,
       trace (CloseConnection cls s).2 =
         trace s ++ [EvCloseConnection NETWORK_RECV_STATUS_CONNECTION_LOST] ++ evs).
Proof.
  intros Hret Hext. unfold CloseConnection, call_CloseConnection. split.
  - intros Hserver Hnet. rewrite Hserver, Hnet. simpl.
    match goal with
    | |- context [CloseConnection_status cls ?st ?s0] =>
        destruct (Hret st s0) as (Hr & Hn & Hm);
        destruct (Hext st s0) as [evs Hevs]
    end.
    split; [exact Hr|]. split.
    + unfold dropped_to_menu. rewrite Hn, Hm. split; reflexivity.
    + exists evs. rewrite Hevs. simpl. rewrite <- !app_assoc. reflexivity.
  - intros Hother.
    assert (Hcond : negb (_network_server s) && _networking s = false)
      by (destruct Hother as [-> | ->]; [reflexivity | apply andb_false_r]).
    rewrite Hcond.
    match goal with
    | |- context [CloseConnection_status cls ?st ?s0] =>
        destruct (Hret st s0) as (Hr & Hn & Hm);
        destruct (Hext st s0) as [evs Hevs]
    end.
    split; [exact Hr|]. split; [exact Hn|].
    exists evs. rewrite Hevs. simpl. rewrite <- !app_assoc. reflexivity.
Qed.

Lemma client_CloseConnection_returns_given bodies :
  close_returns_given (NetworkClient.closing_client bodies).
Proof. intros status s. repeat split. Qed.

Lemma client_CloseConnection_extends_trace bodies :
  close_extends_trace (NetworkClient.closing_client bodies).
Proof. intros status s. exists []. simpl. by rewrite app_nil_r. Qed.

(** C6: from every connection state [st] of a client handler, a lost
    connection leaves the handler in the Inactive state. On a client with
    networking on, the emergency save is the first thing done, before the
    client drops to the main menu with networking off and before the
    connection is closed; the close is made with, and the call returns,
    NETWORK_RECV_STATUS_CLIENT_QUIT. The save does not depend on the state:
    it is made from every state, not only from Active. In every other case
    nothing is saved, the globals stay as they are, and the close is made
    with, and the call returns, NETWORK_RECV_STATUS_CONNECTION_LOST. *)
Theorem CloseConnection_saves_before_closing
    (bodies : PacketGameType -> Handler NetworkClient.ClientFields)
    (st : NetworkClient.ServerStatus) (tok : Z)
    (server networking : bool) (mode : SwitchMode) (tr : list Event) :
  let s := mkConn server networking mode tr
             (NetworkClient.mkClientFields st tok) in
  let r := CloseConnection (NetworkClient.closing_client bodies) s in
  NetworkClient.status (derived r.2) = NetworkClient.STATUS_INACTIVE /\
  _network_server r.2 = server /\
  (server = false -> networking = true ->
     r.1 = NETWORK_RECV_STATUS_CLIENT_QUIT /\
     dropped_to_menu r.2 /\
     trace r.2 = tr ++ [EvEmergencySave; EvShowErrorMessage;
                        EvCloseConnection NETWORK_RECV_STATUS_CLIENT_QUIT]) /\
  (server = true \/ networking = false ->
     r.1 = NETWORK_RECV_STATUS_CONNECTION_LOST /\
     _networking r.2 = networking /\
     _switch_mode r.2 = mode /\
     trace r.2 = tr ++ [EvCloseConnection NETWORK_RECV_STATUS_CONNECTION_LOST]).
Proof.
  intros s r.
  assert (Hst : NetworkClient.status (derived r.2)
                = NetworkClient.STATUS_INACTIVE).
  { subst r s. unfold CloseConnection, call_CloseConnection.
    destruct server, networking; reflexivity. }
  split; [exact Hst|]. split.
  { subst r s. unfold CloseConnection, call_CloseConnection.
    destruct server, networking; reflexivity. }
  destruct (CloseConnection_bool_effect (NetworkClient.closing_client bodies) s
              (client_CloseConnection_returns_given bodies)
              (client_CloseConnection_extends_trace bodies))
    as [Hclient Hother].
  split.
  - intros -> ->. destruct (Hclient eq_refl eq_refl) as (Hr & Hmenu & _).
    split; [exact Hr|]. split; [exact Hmenu|].
    subst r s. unfold CloseConnection, call_CloseConnection. cbn.
    rewrite <- !app_assoc. reflexivity.
  - intros Hcase. destruct (Hother Hcase) as (Hr & Hnet & _).
    split; [exact Hr|]. split; [exact Hnet|].
    subst r s. unfold CloseConnection, call_CloseConnection.
    destruct Hcase as [-> | ->]; [|destruct server]; split; reflexivity.
Qed.

Lemma CloseConnection_saves_before_closing_witness :
  let r := CloseConnection (NetworkClient.closing_client NetworkClient.accept_all)
             (NetworkClient.playing_client NetworkClient.STATUS_JOIN) in
  NetworkClient.status (derived r.2) = NetworkClient.STATUS_INACTIVE /\
  r.1 = NETWORK_RECV_STATUS_CLIENT_QUIT /\
  dropped_to_menu r.2 /\
  trace r.2 = [EvEmergencySave; EvShowErrorMessage;
               EvCloseConnection NETWORK_RECV_STATUS_CLIENT_QUIT].
Proof.
  intros r.
  destruct (CloseConnection_saves_before_closing NetworkClient.accept_all
              NetworkClient.STATUS_JOIN 0 false true SM_NONE [])
    as (Hst & _ & Hclient & _).
  destruct (Hclient eq_refl eq_refl) as (Hr & Hmenu & Htr).
  split; [exact Hst|]. split; [exact Hr|]. split; [exact Hmenu|]. exact Htr.
Defined.

(** From each of the ten connection states the handler ends Inactive, and
    the save is made from each of them. *)
Example CloseConnection_from_every_state :
  Forall (fun st =>
            let r := CloseConnection
                       (NetworkClient.closing_client NetworkClient.accept_all)
                       (NetworkClient.playing_client st) in
            NetworkClient.status (derived r.2) = NetworkClient.STATUS_INACTIVE /\
            EvEmergencySave ∈ trace r.2)
    [NetworkClient.STATUS_INACTIVE; NetworkClient.STATUS_JOIN;
     NetworkClient.STATUS_AUTH_GAME; NetworkClient.STATUS_ENCRYPTED;
     NetworkClient.STATUS_NEWGRFS_CHECK; NetworkClient.STATUS_AUTHORIZED;
     NetworkClient.STATUS_MAP_WAIT; NetworkClient.STATUS_MAP;
     NetworkClient.STATUS_ACTIVE; NetworkClient.STATUS_END].
Proof. repeat constructor. Qed.

(** ** Two-phase close *)

Lemma heap_inv_empty : heap_inv Deferred.empty_heap.
Proof.
  split; [constructor|]. intros p Hp. simpl in Hp. set_solver.
Qed.

Lemma heap_inv_step (h : Deferred.Heap) (o : Deferred.Op) :
  heap_inv h -> Deferred.op_allowed h o = true -> heap_inv (Deferred.run_op h o).
Proof.
  intros [Hnd Hpend] Hok. destruct o as [this id | this |]; simpl in *.
  - split; [exact Hnd|]. intros p Hp. specialize (Hpend p Hp).
    unfold Deferred.IsPendingDeletion, Deferred.construct in *. simpl.
    assert (p <> this) as Hne.
    { intros ->. apply negb_true_iff in Hok.
      unfold Deferred.is_live in Hok. apply bool_decide_eq_false in Hok.
      destruct (Deferred.objects h !! this); [|discriminate Hpend].
      apply Hok. eauto. }
    rewrite lookup_insert_ne by congruence. exact Hpend.
  - apply bool_decide_eq_true in Hok.
    assert (this ∉ Deferred._deferred_deletions h) as Hfresh.
    { intros Hin. rewrite (Hpend this Hin) in Hok. discriminate Hok. }
    split.
    + apply NoDup_app. split; [exact Hnd|]. split.
      * intros x Hx Hx'. apply list_elem_of_singleton in Hx'. subst x. done.
      * apply NoDup_singleton.
    + intros p Hp. unfold Deferred.IsPendingDeletion, Deferred.DeferDeletion in *.
      simpl. destruct (decide (p = this)) as [-> | Hne].
      * rewrite lookup_alter_eq.
        destruct (Deferred.objects h !! this); [reflexivity | discriminate Hok].
      * rewrite lookup_alter_ne by congruence.
        apply Hpend. apply elem_of_app in Hp as [Hp | Hp]; [exact Hp|].
        apply list_elem_of_singleton in Hp. congruence.
  - split; [constructor|]. intros p Hp. set_solver.
Qed.

Lemma heap_inv_run (ops : list Deferred.Op) (h h' : Deferred.Heap) :
  heap_inv h -> Deferred.run_allowed h ops = Some h' -> heap_inv h'.
Proof.
  revert h. induction ops as [|o ops IH]; intros h Hinv Hrun; simpl in Hrun.
  - congruence.
  - destruct (Deferred.op_allowed h o) eqn:Hok; [|discriminate Hrun].
    eapply IH; [|exact Hrun]. by apply heap_inv_step.
Qed.

Lemma fold_delete_handler (l : list nat) (h : Deferred.Heap) :
  Deferred.destroyed (fold_left Deferred.delete_handler l h)
    = Deferred.destroyed h ++ l /\
  forall p, Deferred.objects (fold_left Deferred.delete_handler l h) !! p =
            if bool_decide (p ∈ l) then None else Deferred.objects h !! p.
Proof.
  revert h. induction l as [|x l IH]; intros h.
  - split; [by rewrite app_nil_r|]. intros p.
    case_bool_decide as Hin; [set_solver | reflexivity].
  - destruct (IH (Deferred.delete_handler h x)) as [Hd Ho].
    change (fold_left Deferred.delete_handler (x :: l) h)
      with (fold_left Deferred.delete_handler l (Deferred.delete_handler h x)).
    split.
    + rewrite Hd. simpl. rewrite <- app_assoc. reflexivity.
    + intros p. rewrite Ho. simpl.
      destruct (decide (p = x)) as [-> | Hne].
      * rewrite lookup_delete_eq.
        repeat case_bool_decide; try reflexivity; set_solver.
      * rewrite lookup_delete_ne by congruence.
        repeat case_bool_decide; try reflexivity; set_solver.
Qed.

(** C7: closing is two-phase. On a heap reached by allowed operations,
    [DeferDeletion] on a live handler that is not yet pending makes
    [IsPendingDeletion] true at once and destroys nothing; no operation but
    [ProcessDeferredDeletions] ever runs a destructor; and
    [ProcessDeferredDeletions] runs the destructor of every deferred handler
    exactly once, releases it, and leaves the deferred list empty. *)
Theorem deferred_deletion_is_two_phase (ops : list Deferred.Op)
    (h : Deferred.Heap) (this : nat) :
  Deferred.run_allowed Deferred.empty_heap ops = Some h ->
  (Deferred.IsPendingDeletion this h = Some false ->
     Deferred.IsPendingDeletion this (Deferred.DeferDeletion this h) = Some true /\
     Deferred.is_live this (Deferred.DeferDeletion this h) = true /\
     this ∈ Deferred._deferred_deletions (Deferred.DeferDeletion this h) /\
     Deferred.destroyed (Deferred.DeferDeletion this h) = Deferred.destroyed h) /\
  (forall o, o <> Deferred.OpProcessDeferredDeletions ->
     Deferred.destroyed (Deferred.run_op h o) = Deferred.destroyed h /\
     forall p, Deferred.is_live p h = true ->
               Deferred.is_live p (Deferred.run_op h o) = true) /\
  (Deferred._deferred_deletions (Deferred.ProcessDeferredDeletions h) = [] /\
   Deferred.destroyed (Deferred.ProcessDeferredDeletions h) =
     Deferred.destroyed h ++ Deferred._deferred_deletions h /\
   NoDup (Deferred._deferred_deletions h) /\
   forall p, p ∈ Deferred._deferred_deletions h ->
     Deferred.is_live p h = true /\
     Deferred.is_live p (Deferred.ProcessDeferredDeletions h) = false).
Proof.
  intros Hrun.
  pose proof (heap_inv_run ops _ _ heap_inv_empty Hrun) as [Hnd Hpend].
  split; [|split].
  - intros Hnot. unfold Deferred.IsPendingDeletion, Deferred.is_live,
      Deferred.DeferDeletion in *. simpl.
    rewrite lookup_alter_eq.
    destruct (Deferred.objects h !! this) as [o|]; [|discriminate Hnot].
    simpl. split; [reflexivity|]. split; [|split].
    + reflexivity.
    + apply elem_of_app. right. apply list_elem_of_singleton. reflexivity.
    + reflexivity.
  - intros o Ho. destruct o as [this' id | this' |]; simpl; [| |done].
    + split; [reflexivity|]. intros p Hp.
      unfold Deferred.is_live, Deferred.construct in *. simpl.
      apply bool_decide_eq_true in Hp. apply bool_decide_eq_true.
      destruct (decide (this' = p)) as [-> | Hne].
      * rewrite lookup_insert_eq. eauto.
      * rewrite lookup_insert_ne by exact Hne. exact Hp.
    + split; [reflexivity|]. intros p Hp.
      unfold Deferred.is_live, Deferred.DeferDeletion in *. simpl.
      apply bool_decide_eq_true in Hp. apply bool_decide_eq_true.
      destruct (decide (this' = p)) as [-> | Hne].
      * rewrite lookup_alter_eq. destruct Hp as [x ->]. simpl. eauto.
      * rewrite lookup_alter_ne by exact Hne. exact Hp.
  - unfold Deferred.ProcessDeferredDeletions. simpl.
    destruct (fold_delete_handler (Deferred._deferred_deletions h) h) as [Hd Ho].
    split; [reflexivity|]. split; [exact Hd|]. split; [exact Hnd|].
    intros p Hp. unfold Deferred.is_live. simpl. split.
    + apply bool_decide_eq_true. specialize (Hpend p Hp).
      unfold Deferred.IsPendingDeletion in Hpend.
      destruct (Deferred.objects h !! p); [eauto | discriminate Hpend].
    + apply bool_decide_eq_false. rewrite Ho.
      rewrite bool_decide_eq_true_2 by exact Hp. intros [x Hx]. discriminate Hx.
Qed.

Lemma deferred_deletion_is_two_phase_witness :
  let h := Deferred.DeferDeletion 1
             (Deferred.construct 2 11
                (Deferred.construct 1 10 Deferred.empty_heap)) in
  (Deferred.IsPendingDeletion 2 (Deferred.DeferDeletion 2 h) = Some true /\
   Deferred.is_live 2 (Deferred.DeferDeletion 2 h) = true /\
   2%nat ∈ Deferred._deferred_deletions (Deferred.DeferDeletion 2 h) /\
   Deferred.destroyed (Deferred.DeferDeletion 2 h) = Deferred.destroyed h) /\
  Deferred._deferred_deletions (Deferred.ProcessDeferredDeletions h) = [] /\
  Deferred.destroyed (Deferred.ProcessDeferredDeletions h) = [] ++ [1%nat] /\
  Deferred.is_live 1 (Deferred.ProcessDeferredDeletions h) = false.
Proof.
  intros h.
  destruct (deferred_deletion_is_two_phase
              [Deferred.OpConstruct 1 10; Deferred.OpConstruct 2 11;
               Deferred.OpDeferDeletion 1] h 2%nat)
    as (Hdefer & _ & Hempty & Hdestroyed & _ & Hreleased).
  - vm_compute. reflexivity.
  - split; [|split; [|split]].
    + apply Hdefer. vm_compute. reflexivity.
    + exact Hempty.
    + exact Hdestroyed.
    + apply (Hreleased 1%nat). vm_compute.
      apply list_elem_of_singleton. reflexivity.
Defined.

(** ** The receive loop of a coordinator connection *)




(** Fifty buffered packets: 41 are handled, nine stay queued. *)
Example coordinator_ReceivePackets_50 :
  TcpCoordinator.packets_handled TcpCoordinator.sample_coordinator
    (repeat (mkPacket 3 []) 50) (TcpCoordinator.mkCConn [] tt) = 41%nat /\
  (TcpCoordinator.ReceivePackets TcpCoordinator.sample_coordinator
     (repeat (mkPacket 3 []) 50) (TcpCoordinator.mkCConn [] tt)).1.1 = true /\
  (TcpCoordinator.ReceivePackets TcpCoordinator.sample_coordinator
     [] (TcpCoordinator.mkCConn [] tt)).1.1 = false.
Proof. vm_compute. repeat split. Qed.

(** ** Increasing the loan *)

Lemma saturate_id (x : Z) : MiscCmd.is_int64 x -> MiscCmd.saturate x = x.
Proof. unfold MiscCmd.is_int64, MiscCmd.saturate. lia. Qed.

(** C10: [CmdIncreaseLoan] on a valid current company always returns. It
    returns an error whenever the loan it settled on does not fit on top of
    the company's money ([money > Money::max() - loan], which for a loan in
    0..Money::max() says that [money + loan] exceeds [Money::max()]); and
    whenever it returns an error, or [DoCommandFlag::Execute] is not set,
    the game state, so the money and the current loan of the company, is
    what it was. *)
Theorem CmdIncreaseLoan_guards_overflow (LOAN_INTERVAL : Z)
    (GetMaxLoan : MiscCmd.Company -> Z) (flags : MiscCmd.DoCommandFlags)
    (cmd : MiscCmd.LoanCommand) (amount : Z) (g : MiscCmd.Game)
    (c : MiscCmd.Company) :
  MiscCmd.companies g !! MiscCmd._current_company g = Some c ->
  exists r g',
    MiscCmd.CmdIncreaseLoan LOAN_INTERVAL GetMaxLoan flags cmd amount g
      = Some (r, g') /\
    (forall loan,
       MiscCmd.requested_loan LOAN_INTERVAL GetMaxLoan c cmd amount = inr loan ->
       MiscCmd.Money_sub MiscCmd.Money_max loan < MiscCmd.money c ->
       MiscCmd.Failed r = true) /\
    (forall loan,
       MiscCmd.requested_loan LOAN_INTERVAL GetMaxLoan c cmd amount = inr loan ->
       0 <= loan <= MiscCmd.Money_max ->
       MiscCmd.Money_max < MiscCmd.money c + loan ->
       MiscCmd.Failed r = true) /\
    (MiscCmd.Failed r = true \/ flags MiscCmd.Execute = false -> g' = g) /\
    (MiscCmd.Failed r = true \/ flags MiscCmd.Execute = false ->
     exists c', MiscCmd.companies g' !! MiscCmd._current_company g' = Some c' /\
                MiscCmd.money c' = MiscCmd.money c /\
                MiscCmd.current_loan c' = MiscCmd.current_loan c).
Proof.
  intros Hc.
  assert (Hsub : forall loan, 0 <= loan <= MiscCmd.Money_max ->
            MiscCmd.Money_sub MiscCmd.Money_max loan = MiscCmd.Money_max - loan).
  { intros loan Hl. unfold MiscCmd.Money_sub. apply saturate_id.
    unfold MiscCmd.is_int64, MiscCmd.Money_max, MiscCmd.INT64_MAX,
      MiscCmd.INT64_MIN in *. lia. }
  unfold MiscCmd.CmdIncreaseLoan. rewrite Hc. simpl.
  destruct (MiscCmd.requested_loan LOAN_INTERVAL GetMaxLoan c cmd amount)
    as [err | loan] eqn:Hreq.
  - exists err, g. split; [reflexivity|].
    split; [intros ? [=]|]. split; [intros ? [=]|].
    split; [reflexivity|]. intros _. exists c. auto.
  - destruct (MiscCmd.Money_sub MiscCmd.Money_max loan <? MiscCmd.money c) eqn:Hov.
    + exists MiscCmd.CMD_ERROR, g. split; [reflexivity|].
      split; [reflexivity|]. split; [reflexivity|].
      split; [reflexivity|]. intros _. exists c. auto.
    + apply Z.ltb_ge in Hov.
      destruct (flags MiscCmd.Execute) eqn:Hex.
      * eexists _, _. split; [reflexivity|]. simpl.
        split; [intros l [= <-] Hl; lia|].
        split; [intros l [= <-] Hr Hl; rewrite (Hsub _ Hr) in Hov; lia|].
        split; intros [H | H]; discriminate H.
      * exists (MiscCmd.Cost MiscCmd.EXPENSES_OTHER 0), g.
        split; [reflexivity|]. simpl.
        split; [intros l [= <-] Hl; lia|].
        split; [intros l [= <-] Hr Hl; rewrite (Hsub _ Hr) in Hov; lia|].
        split; [reflexivity|]. intros _. exists c. auto.
Qed.

Lemma CmdIncreaseLoan_guards_overflow_witness :
  exists r g',
    MiscCmd.CmdIncreaseLoan 10000 MiscCmd.max_loan
      (MiscCmd.flags_of [MiscCmd.Execute]) MiscCmd.Interval 0 rich_game
      = Some (r, g') /\
    MiscCmd.Failed r = true /\ g' = rich_game.
Proof.
  destruct (CmdIncreaseLoan_guards_overflow 10000 MiscCmd.max_loan
              (MiscCmd.flags_of [MiscCmd.Execute]) MiscCmd.Interval 0
              rich_game rich_company)
    as (r & g' & Hrun & Hover & _ & Hsame & _).
  - reflexivity.
  - exists r, g'. split; [exact Hrun|].
    assert (Hfail : MiscCmd.Failed r = true).
    { apply (Hover 10000); [reflexivity | vm_compute; reflexivity]. }
    split; [exact Hfail|]. apply Hsame. left. exact Hfail.
Defined.

(** At 5000 below [Money::max()] a loan of 10000 is refused and nothing
    changes, with [Execute] set. *)
Example CmdIncreaseLoan_refuses_overflow :
  MiscCmd.CmdIncreaseLoan 10000 MiscCmd.max_loan
    (MiscCmd.flags_of [MiscCmd.Execute]) MiscCmd.Interval 0 rich_game
    = Some (MiscCmd.CMD_ERROR, rich_game).
Proof. reflexivity. Qed.

(** ** What a command packet carries *)

(** C8: [my_cmd] is not transmitted. Two command packets that differ only
    in [my_cmd] serialize to the same [ClientCommand] packet and to the
    same [ServerCommand] packet; the former holds company, command ID,
    parameter buffer and callback ID, the latter those and the frame. *)
Theorem my_cmd_is_not_transmitted (a b : NetworkCommand.CommandPacket) :
  NetworkCommand.differ_only_in_my_cmd a b ->
  NetworkCommand.SendClientCommand a = NetworkCommand.SendClientCommand b /\
  NetworkCommand.SendServerCommand a = NetworkCommand.SendServerCommand b /\
  packet_body (NetworkCommand.SendClientCommand a) =
    NetworkCommand.Send_uint8 (NetworkCommand.callback a)
      (NetworkCommand.Send_buffer (NetworkCommand.data a)
         (NetworkCommand.Send_uint32 (NetworkCommand.cmd a)
            (NetworkCommand.Send_uint8 (NetworkCommand.company a) []))) /\
  packet_body (NetworkCommand.SendServerCommand a) =
    NetworkCommand.Send_uint32 (NetworkCommand.frame a)
      (packet_body (NetworkCommand.SendClientCommand a)).
Proof.
  intros (Hco & Hfr & Hcmd & _ & Hcb & Hdata).
  unfold NetworkCommand.SendClientCommand, NetworkCommand.SendServerCommand,
    NetworkCommand.SendCommand.
  rewrite Hco, Hfr, Hcmd, Hcb, Hdata. repeat split.
Qed.

Lemma my_cmd_is_not_transmitted_witness :
  let cp := NetworkCommand.mkCommandPacket 3 1006 true 17 0 2 [9; 8; 7] in
  NetworkCommand.SendClientCommand cp =
    NetworkCommand.SendClientCommand (NetworkCommand.set_my_cmd false cp) /\
  NetworkCommand.SendServerCommand cp =
    NetworkCommand.SendServerCommand (NetworkCommand.set_my_cmd false cp).
Proof.
  intros cp.
  destruct (my_cmd_is_not_transmitted cp (NetworkCommand.set_my_cmd false cp))
    as (Hc & Hs & _).
  - unfold NetworkCommand.differ_only_in_my_cmd. simpl. repeat split.
  - split; [exact Hc | exact Hs].
Defined.

(** The bytes of the two packets for one command. *)
Example command_packet_bytes :
  let cp := NetworkCommand.mkCommandPacket 3 1006 true 17 0 2 [9; 8; 7] in
  NetworkCommand.SendClientCommand cp =
    mkPacket 29 [3; 17; 0; 0; 0; 3; 0; 9; 8; 7; 2] /\
  NetworkCommand.SendServerCommand cp =
    mkPacket 30 [3; 17; 0; 0; 0; 3; 0; 9; 8; 7; 2; 238; 3; 0; 0].
Proof. vm_compute. split; reflexivity. Qed.

(** ** Frame counters *)





(** A participant at the ceiling stalls until a higher ceiling arrives. *)
Example frame_counters_stall :
  FrameSync.run (FrameSync.initial 1000)
    [FrameSync.OpStep; FrameSync.OpReceiveFrame 1002; FrameSync.OpStep;
     FrameSync.OpStep; FrameSync.OpStep; FrameSync.OpSync;
     FrameSync.OpReceiveFrame 1001]
  = FrameSync.mkFrameCounters 1002 1002 1002.
Proof. reflexivity. Qed.

(** * Further properties of the code *)

(** ** Loans: taking, repaying, and the maximum *)

Lemma saturate_in_range (x : Z) : MiscCmd.is_int64 (MiscCmd.saturate x).
Proof. unfold MiscCmd.is_int64, MiscCmd.saturate, MiscCmd.INT64_MIN, MiscCmd.INT64_MAX. lia. Qed.

Lemma rem_round_down (a step : Z) :
  0 <= a -> 0 < step ->
  0 <= Z.rem a step < step /\ Z.rem (a - Z.rem a step) step = 0 /\
  (step <= a -> step <= a - Z.rem a step).
Proof.
  intros Ha Hs. rewrite Z.rem_mod_nonneg by lia.
  pose proof (Z.mod_pos_bound a step Hs) as Hm.
  pose proof (Z.div_mod a step ltac:(lia)) as Hdm.
  assert (Hq : a - a mod step = step * (a / step)) by lia.
  assert (Hd : 0 <= a / step) by (apply Z.div_pos; lia).
  split; [exact Hm|]. split.
  - rewrite Hq. rewrite Z.rem_mod_nonneg by (try apply Z.mul_nonneg_nonneg; lia).
    rewrite Z.mul_comm. apply Z_mod_mult.
  - intros Hle. rewrite Hq.
    assert (1 <= a / step) by (apply Z.div_le_lower_bound; lia). nia.
Qed.

Lemma rem_zero_sub (a b step : Z) :
  0 < step -> 0 <= b <= a -> Z.rem a step = 0 -> Z.rem b step = 0 ->
  Z.rem (a - b) step = 0.
Proof.
  intros Hs Hab Ha Hb.
  rewrite Z.rem_mod_nonneg in * by lia.
  apply Z.mod_divide in Ha, Hb; try lia.
  apply Z.mod_divide; [lia|]. by apply Z.divide_sub_r.
Qed.

Lemma rem_zero_add (a b step : Z) :
  0 < step -> 0 <= a -> 0 <= b -> Z.rem a step = 0 -> Z.rem b step = 0 ->
  Z.rem (a + b) step = 0.
Proof.
  intros Hs Ha0 Hb0 Ha Hb.
  rewrite Z.rem_mod_nonneg in * by lia.
  apply Z.mod_divide in Ha, Hb; try lia.
  apply Z.mod_divide; [lia|]. by apply Z.divide_add_r.
Qed.

Lemma rem_zero_positive (a step : Z) :
  0 < step -> 0 <= a -> a <> 0 -> Z.rem a step = 0 -> step <= a.
Proof.
  intros Hs Ha Hne Hr. rewrite Z.rem_mod_nonneg in Hr by lia.
  apply Z.mod_divide in Hr; [|lia]. destruct Hr as [k Hk].
  destruct (Z_lt_le_dec k 1) as [Hk0 | Hk1].
  - assert (k * step <= 0) by (apply Z.mul_nonpos_nonneg; lia). lia.
  - assert (1 * step <= k * step) by (apply Z.mul_le_mono_nonneg_r; lia). lia.
Qed.

(** What [requested_loan] hands on, case by case. *)
Lemma requested_loan_inr (LOAN_INTERVAL : Z) (GetMaxLoan : MiscCmd.Company -> Z)
    (c : MiscCmd.Company) (cmd : MiscCmd.LoanCommand) (amount loan : Z) :
  MiscCmd.requested_loan LOAN_INTERVAL GetMaxLoan c cmd amount = inr loan ->
  MiscCmd.current_loan c < GetMaxLoan c /\
  ((cmd = MiscCmd.Interval /\ loan = LOAN_INTERVAL) \/
   (cmd = MiscCmd.Max /\
    loan = MiscCmd.Money_sub (GetMaxLoan c) (MiscCmd.current_loan c)) \/
   (cmd = MiscCmd.Amount /\ loan = amount /\ LOAN_INTERVAL <= amount /\
    MiscCmd.Money_add (MiscCmd.current_loan c) amount <= GetMaxLoan c /\
    Z.rem amount LOAN_INTERVAL = 0)).
Proof.
  unfold MiscCmd.requested_loan.
  destruct (Z.leb_spec (GetMaxLoan c) (MiscCmd.current_loan c)) as [Hle | Hlt];
    [discriminate|].
  destruct cmd as [| | | raw]; intros Heq.
  - injection Heq as <-. split; [lia|]. left. auto.
  - injection Heq as <-. split; [lia|]. right. left. auto.
  - unfold MiscCmd.Money_rem in Heq.
    destruct (Z.ltb_spec amount LOAN_INTERVAL); [discriminate|].
    destruct (Z.ltb_spec (GetMaxLoan c)
                (MiscCmd.Money_add (MiscCmd.current_loan c) amount));
      [discriminate|].
    destruct (Z.eqb_spec (Z.rem amount LOAN_INTERVAL) 0); [|discriminate].
    simpl in Heq. injection Heq as <-. split; [lia|]. right. right. auto.
  - discriminate.
Qed.

(** X1: a loan taken with [Execute] is added in full to the money and to the
    current loan, so money minus loan stays what it was; the loan is
    positive; for [Amount] and [Max] the new loan stays within the maximum
    ([Max] reaches it); and a loan counted in steps stays counted in steps
    when the maximum is. *)
Theorem CmdIncreaseLoan_adds_to_money_and_loan (LOAN_INTERVAL : Z)
    (GetMaxLoan : MiscCmd.Company -> Z) (flags : MiscCmd.DoCommandFlags)
    (cmd : MiscCmd.LoanCommand) (amount : Z) (g g' : MiscCmd.Game)
    (c : MiscCmd.Company) (r : MiscCmd.CommandCost) :
  MiscCmd.companies g !! MiscCmd._current_company g = Some c ->
  MiscCmdMore.company_in_range c ->
  0 <= MiscCmd.current_loan c ->
  0 < LOAN_INTERVAL ->
  GetMaxLoan c + LOAN_INTERVAL <= MiscCmd.INT64_MAX ->
  MiscCmd.CmdIncreaseLoan LOAN_INTERVAL GetMaxLoan flags cmd amount g
    = Some (r, g') ->
  MiscCmd.Failed r = false ->
  flags MiscCmd.Execute = true ->
  exists loan c',
    0 < loan /\
    MiscCmd.companies g' =
      <[MiscCmd._current_company g := c']> (MiscCmd.companies g) /\
    MiscCmd._current_company g' = MiscCmd._current_company g /\
    MiscCmd.money c' = MiscCmd.money c + loan /\
    MiscCmd.current_loan c' = MiscCmd.current_loan c + loan /\
    MiscCmd.max_loan c' = MiscCmd.max_loan c /\
    (cmd <> MiscCmd.Interval -> MiscCmd.current_loan c' <= GetMaxLoan c) /\
    (cmd = MiscCmd.Max -> MiscCmd.current_loan c' = GetMaxLoan c) /\
    (MiscCmdMore.loan_in_steps LOAN_INTERVAL (MiscCmd.current_loan c) ->
     Z.rem (GetMaxLoan c) LOAN_INTERVAL = 0 ->
     MiscCmdMore.loan_in_steps LOAN_INTERVAL (MiscCmd.current_loan c')).
Proof.
  intros Hc [Hm Hl] Hl0 Hstep Hmax Hrun Hok Hex.
  unfold MiscCmd.CmdIncreaseLoan in Hrun. rewrite Hc in Hrun. simpl in Hrun.
  destruct (MiscCmd.requested_loan LOAN_INTERVAL GetMaxLoan c cmd amount)
    as [err | loan] eqn:Hreq.
  { injection Hrun as <- <-. unfold MiscCmd.requested_loan in Hreq.
    destruct (GetMaxLoan c <=? MiscCmd.current_loan c); [by injection Hreq as <-|].
    destruct cmd; try discriminate Hreq; try (by injection Hreq as <-).
    destruct (_ || _); [by injection Hreq as <-|discriminate]. }
  destruct (Z.ltb_spec (MiscCmd.Money_sub MiscCmd.Money_max loan) (MiscCmd.money c))
    as [Hov | Hfit]; [injection Hrun as <- <-; discriminate Hok|].
  rewrite Hex in Hrun. injection Hrun as <- <-.
  apply requested_loan_inr in Hreq as [Hlt Hcase].
  unfold MiscCmd.is_int64, MiscCmd.INT64_MIN, MiscCmd.INT64_MAX,
    MiscCmd.Money_max in *.
  assert (Hloan : 0 < loan /\ MiscCmd.current_loan c + loan <= MiscCmd.INT64_MAX /\
                  (cmd <> MiscCmd.Interval ->
                   MiscCmd.current_loan c + loan <= GetMaxLoan c) /\
                  (cmd = MiscCmd.Max ->
                   MiscCmd.current_loan c + loan = GetMaxLoan c) /\
                  (Z.rem (MiscCmd.current_loan c) LOAN_INTERVAL = 0 ->
                   Z.rem (GetMaxLoan c) LOAN_INTERVAL = 0 ->
                   Z.rem (MiscCmd.current_loan c + loan) LOAN_INTERVAL = 0)).
  { unfold MiscCmd.INT64_MAX.
    destruct Hcase as [[-> ->] | [[-> ->] | (-> & -> & Hge & Hsum & Hrem)]].
    - split; [lia|]. split; [lia|]. split; [congruence|].
      split; [discriminate|].
      intros H1 _. apply rem_zero_add; try lia. apply Z.rem_same. lia.
    - unfold MiscCmd.Money_sub. rewrite saturate_id
        by (unfold MiscCmd.is_int64, MiscCmd.INT64_MIN, MiscCmd.INT64_MAX; lia).
      split; [lia|]. split; [lia|]. split; [intros _; lia|].
      split; [intros _; lia|]. intros _ H2.
      replace (MiscCmd.current_loan c + (GetMaxLoan c - MiscCmd.current_loan c))
        with (GetMaxLoan c) by lia. exact H2.
    - unfold MiscCmd.Money_add, MiscCmd.saturate, MiscCmd.INT64_MIN,
        MiscCmd.INT64_MAX in Hsum.
      split; [lia|]. split; [lia|]. split; [intros _; lia|].
      split; [discriminate|].
      intros H1 _. apply rem_zero_add; try lia. }
  destruct Hloan as (Hpos & Hsum & Hbound & Hreach & Hsteps).
  unfold MiscCmd.INT64_MAX in *.
  assert (Hsub : MiscCmd.Money_sub 9223372036854775807 loan
                 = 9223372036854775807 - loan).
  { unfold MiscCmd.Money_sub. apply saturate_id.
    unfold MiscCmd.is_int64, MiscCmd.INT64_MIN, MiscCmd.INT64_MAX. lia. }
  rewrite Hsub in Hfit.
  eexists loan, _. simpl.
  unfold MiscCmd.Money_add.
  rewrite !saturate_id
    by (unfold MiscCmd.is_int64, MiscCmd.INT64_MIN, MiscCmd.INT64_MAX; lia).
  split; [exact Hpos|]. do 5 (split; [reflexivity|]).
  split; [exact Hbound|]. split; [exact Hreach|].
  intros [H0 H1] H2. split; [simpl; lia | simpl; auto].
Qed.

Lemma requested_loan_inl (LOAN_INTERVAL : Z) (GetMaxLoan : MiscCmd.Company -> Z)
    (c : MiscCmd.Company) (cmd : MiscCmd.LoanCommand) (amount : Z)
    (err : MiscCmd.CommandCost) :
  MiscCmd.requested_loan LOAN_INTERVAL GetMaxLoan c cmd amount = inl err ->
  MiscCmd.Failed err = true.
Proof.
  unfold MiscCmd.requested_loan.
  destruct (GetMaxLoan c <=? MiscCmd.current_loan c); [by intros [= <-]|].
  destruct cmd; try discriminate; try (by intros [= <-]).
  destruct (_ || _); [by intros [= <-] | discriminate].
Qed.

Lemma CmdIncreaseLoan_adds_to_money_and_loan_witness :
  exists loan c',
    0 < loan /\
    MiscCmd.companies
      (MiscCmd.mkGame {[ 0 := MiscCmd.mkCompany 400000 500000 500000 ]} 0 [0])
      = <[0 := c']> (MiscCmd.companies MiscCmdMore.small_game) /\
    MiscCmd.money c' = 100000 + loan /\
    MiscCmd.current_loan c' = 200000 + loan.
Proof.
  destruct (CmdIncreaseLoan_adds_to_money_and_loan 10000 MiscCmd.max_loan
              (MiscCmd.flags_of [MiscCmd.Execute]) MiscCmd.Max 0
              MiscCmdMore.small_game
              (MiscCmd.mkGame
                 {[ 0 := MiscCmd.mkCompany 400000 500000 500000 ]} 0 [0])
              MiscCmdMore.small_company (MiscCmd.Cost MiscCmd.EXPENSES_OTHER 0))
    as (loan & c' & Hpos & Hcomp & _ & Hm & Hl & _).
  - reflexivity.
  - unfold MiscCmdMore.company_in_range, MiscCmd.is_int64. simpl.
    unfold MiscCmd.INT64_MIN, MiscCmd.INT64_MAX. lia.
  - simpl. lia.
  - lia.
  - simpl. unfold MiscCmd.INT64_MAX. lia.
  - vm_compute. reflexivity.
  - reflexivity.
  - reflexivity.
  - exists loan, c'. split; [exact Hpos|]. split; [exact Hcomp|].
    split; [exact Hm | exact Hl].
Defined.

(** X2: taking a loan of some amount and repaying the same amount, both with
    [Execute], gives back the company records as they were; the repayment
    goes through as soon as the command may spend that amount. *)
Theorem loan_round_trip (LOAN_INTERVAL : Z) (GetMaxLoan : MiscCmd.Company -> Z)
    (GetAvailableMoneyForCommand : MiscCmd.Game -> Z)
    (flags : MiscCmd.DoCommandFlags) (amount : Z) (g g1 : MiscCmd.Game)
    (c : MiscCmd.Company) (r1 : MiscCmd.CommandCost) :
  MiscCmd.companies g !! MiscCmd._current_company g = Some c ->
  MiscCmdMore.company_in_range c ->
  0 <= MiscCmd.current_loan c ->
  0 < LOAN_INTERVAL ->
  GetMaxLoan c + LOAN_INTERVAL <= MiscCmd.INT64_MAX ->
  flags MiscCmd.Execute = true ->
  MiscCmd.CmdIncreaseLoan LOAN_INTERVAL GetMaxLoan flags MiscCmd.Amount amount g
    = Some (r1, g1) ->
  MiscCmd.Failed r1 = false ->
  amount <= GetAvailableMoneyForCommand g1 ->
  exists g2,
    MiscCmdMore.CmdDecreaseLoan LOAN_INTERVAL GetAvailableMoneyForCommand
      flags MiscCmd.Amount amount g1
      = Some (MiscCmdMore.CommandCost_default, g2) /\
    MiscCmd.companies g2 = MiscCmd.companies g /\
    MiscCmd._current_company g2 = MiscCmd._current_company g.
Proof.
  intros Hc [Hm Hl] Hl0 Hstep Hmax Hex Hrun Hok Havail.
  unfold MiscCmd.CmdIncreaseLoan in Hrun. rewrite Hc in Hrun. simpl in Hrun.
  destruct (MiscCmd.requested_loan LOAN_INTERVAL GetMaxLoan c MiscCmd.Amount amount)
    as [err | loan] eqn:Hreq.
  { injection Hrun as <- <-. apply requested_loan_inl in Hreq. congruence. }
  destruct (Z.ltb_spec (MiscCmd.Money_sub MiscCmd.Money_max loan) (MiscCmd.money c))
    as [Hov | Hfit]; [injection Hrun as <- <-; discriminate Hok|].
  rewrite Hex in Hrun. injection Hrun as <- <-.
  apply requested_loan_inr in Hreq
    as [Hlt [[[=] _] | [[[=] _] | (_ & -> & Hge & Hsum & Hrem)]]].
  unfold MiscCmd.is_int64, MiscCmd.INT64_MIN, MiscCmd.INT64_MAX,
    MiscCmd.Money_max in *.
  assert (Hadd : MiscCmd.Money_add (MiscCmd.current_loan c) amount
                 = MiscCmd.current_loan c + amount).
  { unfold MiscCmd.Money_add, MiscCmd.saturate, MiscCmd.INT64_MIN,
      MiscCmd.INT64_MAX in *. lia. }
  rewrite Hadd in Hsum. unfold MiscCmd.INT64_MAX in *.
  assert (Hsub : MiscCmd.Money_sub 9223372036854775807 amount
                 = 9223372036854775807 - amount).
  { unfold MiscCmd.Money_sub. apply saturate_id.
    unfold MiscCmd.is_int64, MiscCmd.INT64_MIN, MiscCmd.INT64_MAX. lia. }
  rewrite Hsub in Hfit.
  assert (Hadd' : MiscCmd.Money_add (MiscCmd.money c) amount
                  = MiscCmd.money c + amount).
  { unfold MiscCmd.Money_add. apply saturate_id.
    unfold MiscCmd.is_int64, MiscCmd.INT64_MIN, MiscCmd.INT64_MAX. lia. }
  rewrite Hadd, Hadd' in Havail |- *.
  unfold MiscCmdMore.CmdDecreaseLoan. simpl in *.
  rewrite lookup_insert_eq. simpl.
  destruct (Z.eqb_spec (MiscCmd.current_loan c + amount) 0) as [H0 | _]; [lia|].
  unfold MiscCmd.Money_rem. rewrite Hrem. simpl.
  destruct (Z.ltb_spec amount LOAN_INTERVAL) as [? | _]; [lia|].
  destruct (Z.ltb_spec (MiscCmd.current_loan c + amount) amount) as [? | _]; [lia|].
  simpl.
  destruct (Z.ltb_spec (GetAvailableMoneyForCommand
              (MiscCmd.mkGame
                 (<[MiscCmd._current_company g :=
                      MiscCmd.mkCompany (MiscCmd.money c + amount)
                        (MiscCmd.current_loan c + amount) (MiscCmd.max_loan c)]>
                    (MiscCmd.companies g))
                 (MiscCmd._current_company g)
                 (MiscCmd.invalidated g ++ [MiscCmd._current_company g])))
              amount) as [? | _]; [lia|].
  rewrite Hex. eexists. split; [reflexivity|]. simpl. split; [|reflexivity].
  rewrite insert_insert_eq.
  unfold MiscCmd.Money_sub.
  rewrite !saturate_id
    by (unfold MiscCmd.is_int64, MiscCmd.INT64_MIN, MiscCmd.INT64_MAX; lia).
  replace (MiscCmd.money c + amount - amount) with (MiscCmd.money c) by lia.
  replace (MiscCmd.current_loan c + amount - amount)
    with (MiscCmd.current_loan c) by lia.
  apply insert_id. rewrite Hc. by destruct c.
Qed.

Lemma loan_round_trip_witness :
  exists g2,
    MiscCmdMore.CmdDecreaseLoan 10000 MiscCmdMore.money_of_current_company
      (MiscCmd.flags_of [MiscCmd.Execute]) MiscCmd.Amount 30000
      (MiscCmd.mkGame {[ 0 := MiscCmd.mkCompany 130000 230000 500000 ]} 0 [0])
      = Some (MiscCmdMore.CommandCost_default, g2) /\
    MiscCmd.companies g2 = MiscCmd.companies MiscCmdMore.small_game /\
    MiscCmd._current_company g2 = 0.
Proof.
  apply (loan_round_trip 10000 MiscCmd.max_loan
           MiscCmdMore.money_of_current_company
           (MiscCmd.flags_of [MiscCmd.Execute]) 30000 MiscCmdMore.small_game
           (MiscCmd.mkGame
              {[ 0 := MiscCmd.mkCompany 130000 230000 500000 ]} 0 [0])
           MiscCmdMore.small_company (MiscCmd.Cost MiscCmd.EXPENSES_OTHER 0)).
  - reflexivity.
  - unfold MiscCmdMore.company_in_range, MiscCmd.is_int64. simpl.
    unfold MiscCmd.INT64_MIN, MiscCmd.INT64_MAX. lia.
  - simpl. lia.
  - lia.
  - simpl. unfold MiscCmd.INT64_MAX. lia.
  - reflexivity.
  - vm_compute. reflexivity.
  - reflexivity.
  - vm_compute. discriminate.
Defined.

Lemma repaid_loan_inr (LOAN_INTERVAL : Z)
    (GetAvailableMoneyForCommand : MiscCmd.Game -> Z) (g : MiscCmd.Game)
    (c : MiscCmd.Company) (cmd : MiscCmd.LoanCommand) (amount x : Z) :
  0 < LOAN_INTERVAL ->
  MiscCmd.is_int64 (MiscCmd.current_loan c) ->
  MiscCmdMore.loan_in_steps LOAN_INTERVAL (MiscCmd.current_loan c) ->
  MiscCmd.current_loan c <> 0 ->
  MiscCmdMore.repaid_loan LOAN_INTERVAL GetAvailableMoneyForCommand g c cmd amount
    = inr x ->
  LOAN_INTERVAL <= x <= MiscCmd.current_loan c /\ Z.rem x LOAN_INTERVAL = 0.
Proof.
  intros Hstep Hrange [Hl0 Hrem] Hne.
  pose proof (rem_zero_positive _ _ Hstep Hl0 Hne Hrem) as Hge.
  unfold MiscCmd.is_int64, MiscCmd.INT64_MIN, MiscCmd.INT64_MAX in Hrange.
  unfold MiscCmdMore.repaid_loan. destruct cmd as [| | | raw].
  - intros [= <-]. rewrite Z.min_r by lia. split; [lia|]. apply Z.rem_same. lia.
  - intros [= <-]. unfold MiscCmd.Money_rem, MiscCmd.Money_sub.
    set (loan := Z.max (Z.min (MiscCmd.current_loan c)
                          (GetAvailableMoneyForCommand g)) LOAN_INTERVAL).
    assert (Hloan : LOAN_INTERVAL <= loan <= MiscCmd.current_loan c)
      by (unfold loan; lia).
    destruct (rem_round_down loan LOAN_INTERVAL ltac:(lia) Hstep)
      as (Hr & Hz & Hlow).
    rewrite saturate_id
      by (unfold MiscCmd.is_int64, MiscCmd.INT64_MIN, MiscCmd.INT64_MAX; lia).
    split; [|exact Hz]. specialize (Hlow ltac:(lia)). lia.
  - unfold MiscCmd.Money_rem.
    destruct (Z.eqb_spec (Z.rem amount LOAN_INTERVAL) 0) as [Hr | ?];
      [|discriminate].
    destruct (Z.ltb_spec amount LOAN_INTERVAL); [discriminate|].
    destruct (Z.ltb_spec (MiscCmd.current_loan c) amount); [discriminate|].
    simpl. intros [= <-]. split; [lia | exact Hr].
  - discriminate.
Qed.

(** X3: [CmdDecreaseLoan] on a valid current company always returns. With no
    loan left it reports that the loan is already repaid. On an error, or
    without [Execute], nothing changes. When the loan is counted in steps of
    [LOAN_INTERVAL], a repayment that goes through takes off the loan a whole
    number of steps, at least one, at most the loan and at most what the
    command may spend, and takes the same amount off the money; the loan
    left is still counted in steps and not negative. *)
Theorem CmdDecreaseLoan_repays_in_steps (LOAN_INTERVAL : Z)
    (GetAvailableMoneyForCommand : MiscCmd.Game -> Z)
    (flags : MiscCmd.DoCommandFlags) (cmd : MiscCmd.LoanCommand) (amount : Z)
    (g : MiscCmd.Game) (c : MiscCmd.Company) :
  MiscCmd.companies g !! MiscCmd._current_company g = Some c ->
  MiscCmd.is_int64 (MiscCmd.current_loan c) ->
  0 < LOAN_INTERVAL ->
  MiscCmdMore.loan_in_steps LOAN_INTERVAL (MiscCmd.current_loan c) ->
  exists r g',
    MiscCmdMore.CmdDecreaseLoan LOAN_INTERVAL GetAvailableMoneyForCommand
      flags cmd amount g = Some (r, g') /\
    (MiscCmd.current_loan c = 0 ->
     r = MiscCmdMore.CostError MiscCmdMore.STR_ERROR_LOAN_ALREADY_REPAYED None) /\
    (MiscCmdMore.Failed r = true \/ flags MiscCmd.Execute = false -> g' = g) /\
    (MiscCmdMore.Failed r = false -> flags MiscCmd.Execute = true ->
     exists x c',
       LOAN_INTERVAL <= x <= MiscCmd.current_loan c /\
       Z.rem x LOAN_INTERVAL = 0 /\
       x <= GetAvailableMoneyForCommand g /\
       MiscCmd.companies g' =
         <[MiscCmd._current_company g := c']> (MiscCmd.companies g) /\
       MiscCmd.current_loan c' = MiscCmd.current_loan c - x /\
       MiscCmd.money c' = MiscCmd.Money_sub (MiscCmd.money c) x /\
       MiscCmd.max_loan c' = MiscCmd.max_loan c /\
       MiscCmdMore.loan_in_steps LOAN_INTERVAL (MiscCmd.current_loan c')).
Proof.
  intros Hc Hrange Hstep Hsteps.
  unfold MiscCmdMore.CmdDecreaseLoan. rewrite Hc. simpl.
  destruct (Z.eqb_spec (MiscCmd.current_loan c) 0) as [Hz | Hnz].
  { eexists _, g. split; [reflexivity|]. split; [reflexivity|].
    split; [reflexivity|]. intros [=]. }
  destruct (MiscCmdMore.repaid_loan LOAN_INTERVAL GetAvailableMoneyForCommand
              g c cmd amount) as [err | x] eqn:Hrep.
  { exists err, g. split; [reflexivity|]. split; [intros; lia|].
    split; [reflexivity|]. intros Hfail _.
    unfold MiscCmdMore.repaid_loan in Hrep.
    destruct cmd; try discriminate Hrep;
      try (injection Hrep as <-; discriminate Hfail).
    destruct (_ || _); [injection Hrep as <-; discriminate Hfail | discriminate]. }
  pose proof (repaid_loan_inr _ _ _ _ _ _ _ Hstep Hrange Hsteps Hnz Hrep)
    as [Hx Hxr].
  destruct (Z.ltb_spec (GetAvailableMoneyForCommand g) x) as [Hpoor | Hrich].
  { eexists _, g. split; [reflexivity|]. split; [intros; lia|].
    split; [reflexivity|]. intros [=]. }
  destruct (flags MiscCmd.Execute) eqn:Hex.
  - eexists _, _. split; [reflexivity|]. split; [intros; lia|].
    split; [intros [[=] | [=]]|]. intros _ _.
    exists x. eexists. split; [exact Hx|]. split; [exact Hxr|].
    split; [exact Hrich|]. simpl. split; [reflexivity|].
    destruct Hsteps as [Hl0 Hlr].
    unfold MiscCmd.is_int64, MiscCmd.INT64_MIN, MiscCmd.INT64_MAX in Hrange.
    assert (Hsub : MiscCmd.Money_sub (MiscCmd.current_loan c) x
                   = MiscCmd.current_loan c - x).
    { unfold MiscCmd.Money_sub. apply saturate_id.
      unfold MiscCmd.is_int64, MiscCmd.INT64_MIN, MiscCmd.INT64_MAX. lia. }
    rewrite Hsub. split; [reflexivity|]. split; [reflexivity|].
    split; [reflexivity|]. unfold MiscCmdMore.loan_in_steps. simpl.
    split; [lia|]. apply rem_zero_sub; try lia; assumption.
  - eexists _, g. split; [reflexivity|]. split; [intros; lia|].
    split; [reflexivity|]. intros _ [=].
Qed.

Lemma CmdDecreaseLoan_repays_in_steps_witness :
  exists r g',
    MiscCmdMore.CmdDecreaseLoan 10000 MiscCmdMore.money_of_current_company
      (MiscCmd.flags_of [MiscCmd.Execute]) MiscCmd.Max 0 MiscCmdMore.small_game
      = Some (r, g') /\
    exists x c',
      10000 <= x <= 200000 /\
      MiscCmd.companies g' = <[0 := c']> (MiscCmd.companies MiscCmdMore.small_game) /\
      MiscCmd.current_loan c' = 200000 - x.
Proof.
  destruct (CmdDecreaseLoan_repays_in_steps 10000
              MiscCmdMore.money_of_current_company
              (MiscCmd.flags_of [MiscCmd.Execute]) MiscCmd.Max 0
              MiscCmdMore.small_game MiscCmdMore.small_company)
    as (r & g' & Hrun & _ & _ & Hdone).
  - reflexivity.
  - unfold MiscCmd.is_int64, MiscCmd.INT64_MIN, MiscCmd.INT64_MAX. simpl. lia.
  - lia.
  - split; [simpl; lia | reflexivity].
  - exists r, g'. split; [exact Hrun|].
    assert (Hr : r = MiscCmdMore.CommandCost_default).
    { vm_compute in Hrun. injection Hrun as <- _. reflexivity. }
    destruct (Hdone ltac:(rewrite Hr; reflexivity) ltac:(reflexivity))
      as (x & c' & Hx & _ & _ & Hcomp & Hloan & _).
    exists x, c'. split; [exact Hx|]. split; [exact Hcomp | exact Hloan].
Defined.

(** X4: [CmdSetCompanyMaxLoan] changes nothing on an error or without
    [Execute]. When it goes through it touches only the maximum loan of the
    named company: that becomes the default marker when the default was
    asked for, and otherwise the amount rounded down to a whole number of
    loan steps, between 0 and the limit. *)
Theorem CmdSetCompanyMaxLoan_rounds_down (LOAN_INTERVAL OWNER_DEITY
    COMPANY_MAX_LOAN_DEFAULT MAX_LOAN_LIMIT : Z)
    (flags : MiscCmd.DoCommandFlags) (company amount : Z) (g : MiscCmd.Game) :
  0 < LOAN_INTERVAL ->
  MiscCmd.is_int64 amount ->
  let r := (MiscCmdMore.CmdSetCompanyMaxLoan LOAN_INTERVAL OWNER_DEITY
              COMPANY_MAX_LOAN_DEFAULT MAX_LOAN_LIMIT flags company amount g).1 in
  let g' := (MiscCmdMore.CmdSetCompanyMaxLoan LOAN_INTERVAL OWNER_DEITY
               COMPANY_MAX_LOAN_DEFAULT MAX_LOAN_LIMIT flags company amount g).2 in
  (MiscCmd._current_company g <> OWNER_DEITY -> MiscCmdMore.Failed r = true) /\
  (MiscCmdMore.Failed r = true \/ flags MiscCmd.Execute = false -> g' = g) /\
  (MiscCmdMore.Failed r = false -> flags MiscCmd.Execute = true ->
   exists c c',
     MiscCmd.companies g !! company = Some c /\
     MiscCmd.companies g' = <[company := c']> (MiscCmd.companies g) /\
     MiscCmd.money c' = MiscCmd.money c /\
     MiscCmd.current_loan c' = MiscCmd.current_loan c /\
     ((amount = COMPANY_MAX_LOAN_DEFAULT /\
       MiscCmd.max_loan c' = COMPANY_MAX_LOAN_DEFAULT) \/
      (amount <> COMPANY_MAX_LOAN_DEFAULT /\
       0 <= MiscCmd.max_loan c' <= amount /\ amount <= MAX_LOAN_LIMIT /\
       amount - LOAN_INTERVAL < MiscCmd.max_loan c' /\
       Z.rem (MiscCmd.max_loan c') LOAN_INTERVAL = 0))).
Proof.
  intros Hstep Hrange r g'. subst r g'.
  unfold MiscCmdMore.CmdSetCompanyMaxLoan.
  destruct (Z.eqb_spec (MiscCmd._current_company g) OWNER_DEITY) as [Hd | Hnd];
    simpl; [|split; [reflexivity|]; split; [reflexivity|]; intros [=]].
  destruct (Z.eqb_spec amount COMPANY_MAX_LOAN_DEFAULT) as [Hdef | Hndef]; simpl.
  - destruct (MiscCmd.companies g !! company) as [c|] eqn:Hc; simpl;
      [|split; [congruence|]; split; [reflexivity|]; intros [=]].
    destruct (flags MiscCmd.Execute) eqn:Hex; simpl.
    + split; [congruence|]. split; [intros [[=] | [=]]|]. intros _ _.
      eexists c, _. split; [reflexivity|]. split; [reflexivity|].
      split; [reflexivity|]. split; [reflexivity|]. left. auto.
    + split; [congruence|]. split; [reflexivity|]. intros _ [=].
  - destruct (Z.ltb_spec amount 0) as [Hneg | Hpos]; simpl;
      [split; [reflexivity|]; split; [reflexivity|]; intros [=]|].
    destruct (Z.ltb_spec MAX_LOAN_LIMIT amount) as [Hbig | Hfit]; simpl;
      [split; [reflexivity|]; split; [reflexivity|]; intros [=]|].
    destruct (MiscCmd.companies g !! company) as [c|] eqn:Hc; simpl;
      [|split; [congruence|]; split; [reflexivity|]; intros [=]].
    destruct (flags MiscCmd.Execute) eqn:Hex; simpl.
    + split; [congruence|]. split; [intros [[=] | [=]]|]. intros _ _.
      eexists c, _. split; [reflexivity|]. split; [reflexivity|].
      split; [reflexivity|]. split; [reflexivity|]. right.
      cbn [MiscCmd.max_loan].
      destruct (rem_round_down amount LOAN_INTERVAL Hpos Hstep) as (Hr & Hz & _).
      pose proof (Z.rem_le amount LOAN_INTERVAL Hpos Hstep) as Hle.
      unfold MiscCmd.is_int64, MiscCmd.INT64_MIN, MiscCmd.INT64_MAX in Hrange.
      unfold MiscCmd.Money_sub. rewrite saturate_id
        by (unfold MiscCmd.is_int64, MiscCmd.INT64_MIN, MiscCmd.INT64_MAX; lia).
      split; [exact Hndef|]. split; [lia|]. split; [lia|]. split; [lia|].
      exact Hz.
    + split; [congruence|]. split; [reflexivity|]. intros _ [=].
Qed.

Lemma CmdSetCompanyMaxLoan_rounds_down_witness :
  (MiscCmdMore.CmdSetCompanyMaxLoan 10000 18 (-9223372036854775808) 2000000000
     (MiscCmd.flags_of [MiscCmd.Execute]) 0 123456
     (MiscCmd.mkGame {[ 0 := MiscCmdMore.small_company ]} 18 [])).2
  = MiscCmd.mkGame {[ 0 := MiscCmd.mkCompany 100000 200000 120000 ]} 18 [0] /\
  (MiscCmd._current_company MiscCmdMore.small_game <> 18 ->
   MiscCmdMore.Failed
     (MiscCmdMore.CmdSetCompanyMaxLoan 10000 18 (-9223372036854775808)
        2000000000 (MiscCmd.flags_of [MiscCmd.Execute]) 0 123456
        MiscCmdMore.small_game).1 = true).
Proof.
  split.
  - reflexivity.
  - apply (CmdSetCompanyMaxLoan_rounds_down 10000 18 (-9223372036854775808)
             2000000000 (MiscCmd.flags_of [MiscCmd.Execute]) 0 123456
             MiscCmdMore.small_game).
    + lia.
    + unfold MiscCmd.is_int64, MiscCmd.INT64_MIN, MiscCmd.INT64_MAX. lia.
Defined.

(** ** Pausing *)

#[local] Existing Instance MiscCmdMore.PauseMode_eq_dec.
#[local] Existing Instance MiscCmdMore.PauseMode_countable.

Lemma CmdPause_execute_networking (m : MiscCmdMore.PauseMode) (pause : bool)
    (st : MiscCmdMore.PauseState) :
  MiscCmdMore._networking (MiscCmdMore.CmdPause_execute m pause st)
    = MiscCmdMore._networking st.
Proof.
  unfold MiscCmdMore.CmdPause_execute.
  destruct (bool_decide (m = MiscCmdMore.Normal) && _); reflexivity.
Qed.

(** X5: [CmdPause] is refused exactly for a mode that is no pause reason a
    command may name ([CommandDuringPause] or no enumerator at all) and for
    the two network modes outside a network game. When refused, or without
    [Execute], it changes nothing, and it never writes [_networking]. *)
Theorem CmdPause_refusals (flags : MiscCmd.DoCommandFlags)
    (mode : MiscCmdMore.PauseModeArg) (pause : bool)
    (st : MiscCmdMore.PauseState) :
  (MiscCmdMore.Failed (MiscCmdMore.CmdPause flags mode pause st).1 = true <->
   (forall m, mode = MiscCmdMore.Mode m -> m = MiscCmdMore.CommandDuringPause \/
      ((m = MiscCmdMore.Join \/ m = MiscCmdMore.ActiveClients) /\
       MiscCmdMore._networking st = false))) /\
  (MiscCmdMore.Failed (MiscCmdMore.CmdPause flags mode pause st).1 = true \/
   flags MiscCmd.Execute = false ->
   (MiscCmdMore.CmdPause flags mode pause st).2 = st) /\
  MiscCmdMore._networking (MiscCmdMore.CmdPause flags mode pause st).2
    = MiscCmdMore._networking st.
Proof.
  destruct mode as [m | raw].
  2:{ simpl. split; [split; [intros _ m [=] | reflexivity]|].
      split; reflexivity. }
  assert (Hgate :
    (if match m with
        | MiscCmdMore.Join | MiscCmdMore.ActiveClients =>
            negb (MiscCmdMore._networking st)
        | _ => false
        end then true else false) = true <->
    ((m = MiscCmdMore.Join \/ m = MiscCmdMore.ActiveClients) /\
     MiscCmdMore._networking st = false)).
  { destruct m, (MiscCmdMore._networking st); simpl; split;
      try discriminate; try tauto;
      try (intros [[? | ?] ?]; discriminate). }
  destruct (decide (m = MiscCmdMore.CommandDuringPause)) as [-> | Hcdp].
  { simpl. split; [split; [intros _ m [= <-]; auto | reflexivity]|].
    split; reflexivity. }
  assert (Hrun : MiscCmdMore.CmdPause flags (MiscCmdMore.Mode m) pause st =
    if match m with
       | MiscCmdMore.Join | MiscCmdMore.ActiveClients =>
           negb (MiscCmdMore._networking st)
       | _ => false
       end
    then (MiscCmdMore.CMD_ERROR, st)
    else if flags MiscCmd.Execute
         then (MiscCmdMore.CommandCost_default,
               MiscCmdMore.CmdPause_execute m pause st)
         else (MiscCmdMore.CommandCost_default, st)).
  { destruct m; try reflexivity. congruence. }
  rewrite Hrun.
  destruct (match m with
            | MiscCmdMore.Join | MiscCmdMore.ActiveClients =>
                negb (MiscCmdMore._networking st)
            | _ => false
            end) eqn:Hg.
  - simpl. split; [|split; reflexivity]. split; [|reflexivity].
    intros _ m' [= <-]. right. apply Hgate. reflexivity.
  - destruct (flags MiscCmd.Execute) eqn:Hex; simpl.
    + split; [|split; [intros [? | ?]; discriminate
                      |apply CmdPause_execute_networking]].
      split; [discriminate|]. intros H.
      destruct (H m eq_refl) as [? | H']; [congruence|].
      apply Hgate in H'. discriminate H'.
    + split; [|split; reflexivity].
      split; [discriminate|]. intros H.
      destruct (H m eq_refl) as [? | H']; [congruence|].
      apply Hgate in H'. discriminate H'.
Qed.

Lemma CmdPause_refusals_witness :
  (MiscCmdMore.CmdPause (MiscCmd.flags_of [MiscCmd.Execute])
     (MiscCmdMore.Mode MiscCmdMore.Join) true
     (MiscCmdMore.mkPauseState ∅ false [])).2
  = MiscCmdMore.mkPauseState ∅ false [].
Proof.
  apply (CmdPause_refusals (MiscCmd.flags_of [MiscCmd.Execute])
           (MiscCmdMore.Mode MiscCmdMore.Join) true
           (MiscCmdMore.mkPauseState ∅ false [])).
  left. reflexivity.
Defined.

Lemma CmdPause_execute_pause_mode (m : MiscCmdMore.PauseMode) (pause : bool)
    (st : MiscCmdMore.PauseState) :
  MiscCmdMore._pause_mode (MiscCmdMore.CmdPause_execute m pause st) =
    if bool_decide (m = MiscCmdMore.Normal) &&
       bool_decide (MiscCmdMore.Error ∈ MiscCmdMore._pause_mode st)
    then MiscCmdMore._pause_mode st
    else if pause then {[m]} ∪ MiscCmdMore._pause_mode st
    else if bool_decide (MiscCmdMore._pause_mode st ∖ {[m]} =
                         {[MiscCmdMore.CommandDuringPause]})
         then ∅ else MiscCmdMore._pause_mode st ∖ {[m]}.
Proof.
  unfold MiscCmdMore.CmdPause_execute.
  destruct (bool_decide (m = MiscCmdMore.Normal) && _); reflexivity.
Qed.

(** X6: what an executed [CmdPause] does to the set of pause reasons. Asking
    for the normal pause while the game is paused on an error changes no
    reason (the player is asked first). Otherwise pausing adds the named
    reason and nothing else; unpausing removes it, and if only
    [CommandDuringPause] would be left removes that too, so the set left is
    never just [CommandDuringPause]. No reason other than the named one and
    [CommandDuringPause] ever changes, and [CommandDuringPause] is never
    added unless it is the reason named. *)
Theorem CmdPause_changes_one_reason (m : MiscCmdMore.PauseMode)
    (pause : bool) (st : MiscCmdMore.PauseState) :
  let pm := MiscCmdMore._pause_mode st in
  let pm' := MiscCmdMore._pause_mode (MiscCmdMore.CmdPause_execute m pause st) in
  (forall x, x <> m -> x <> MiscCmdMore.CommandDuringPause ->
             (x ∈ pm' <-> x ∈ pm)) /\
  (MiscCmdMore.CommandDuringPause ∈ pm' ->
   MiscCmdMore.CommandDuringPause ∈ pm \/
   (m = MiscCmdMore.CommandDuringPause /\ pause = true)) /\
  (m = MiscCmdMore.Normal -> MiscCmdMore.Error ∈ pm -> pm' = pm) /\
  (~ (m = MiscCmdMore.Normal /\ MiscCmdMore.Error ∈ pm) ->
   (pause = true -> pm' = {[m]} ∪ pm) /\
   (pause = false ->
    (m ∉ pm') /\ (pm' ⊆ pm) /\
    ~ (pm' = {[MiscCmdMore.CommandDuringPause]}))).
Proof.
  intros pm pm'. subst pm'. rewrite CmdPause_execute_pause_mode. fold pm.
  destruct (decide (m = MiscCmdMore.Normal /\ MiscCmdMore.Error ∈ pm))
    as [[Hm He] | Hno].
  - rewrite (bool_decide_eq_true_2 _ Hm), (bool_decide_eq_true_2 _ He).
    cbn [andb].
    split; [tauto|]. split; [tauto|]. split; [reflexivity|]. intros H.
    exfalso. apply H. auto.
  - assert (Hcond : bool_decide (m = MiscCmdMore.Normal) &&
                    bool_decide (MiscCmdMore.Error ∈ pm) = false).
    { apply andb_false_iff.
      destruct (decide (m = MiscCmdMore.Normal)) as [Hm | Hm].
      - right. apply bool_decide_eq_false. intros He. apply Hno. auto.
      - left. by apply bool_decide_eq_false. }
    rewrite Hcond. destruct pause.
    + split; [intros x Hx _; set_solver|]. split.
      * intros Hin. apply elem_of_union in Hin as [Hin | Hin]; [|by left].
        apply elem_of_singleton in Hin. right. auto.
      * split; [intros Hm He; exfalso; apply Hno; auto|]. intros _.
        split; [reflexivity | discriminate].
    + destruct (decide (pm ∖ {[m]} = {[MiscCmdMore.CommandDuringPause]}))
        as [Hcdp | Hcdp].
      * rewrite (bool_decide_eq_true_2 _ Hcdp).
        split.
        { intros x Hx Hx'. split; [set_solver|]. intros Hin.
          assert (x ∈ pm ∖ {[m]}) as Hd by set_solver.
          rewrite Hcdp in Hd. set_solver. }
        split; [set_solver|].
        split; [intros Hm He; exfalso; apply Hno; auto|]. intros _.
        split; [discriminate|]. intros _.
        split; [set_solver|]. split; [set_solver|].
        intros Heq.
        assert (MiscCmdMore.CommandDuringPause
                  ∈ (∅ : gset MiscCmdMore.PauseMode))
          by (rewrite Heq; set_solver).
        set_solver.
      * rewrite (bool_decide_eq_false_2 _ Hcdp).
        split; [intros x Hx _; set_solver|]. split; [set_solver|].
        split; [intros Hm He; exfalso; apply Hno; auto|]. intros _.
        split; [discriminate|]. intros _.
        split; [set_solver|]. split; [set_solver | exact Hcdp].
Qed.

Lemma CmdPause_changes_one_reason_witness :
  MiscCmdMore._pause_mode
    (MiscCmdMore.CmdPause_execute MiscCmdMore.Normal true
       (MiscCmdMore.mkPauseState
          {[MiscCmdMore.Error; MiscCmdMore.Join]} true []))
  = {[MiscCmdMore.Error; MiscCmdMore.Join]}.
Proof.
  destruct (CmdPause_changes_one_reason MiscCmdMore.Normal true
              (MiscCmdMore.mkPauseState
                 {[MiscCmdMore.Error; MiscCmdMore.Join]} true []))
    as (_ & _ & Hask & _).
  apply Hask.
  - reflexivity.
  - simpl. apply elem_of_union. left. apply elem_of_singleton. reflexivity.
Defined.

(** Unpausing the last real reason also drops [CommandDuringPause]. *)
Example CmdPause_unpause_clears_command_during_pause :
  MiscCmdMore.CmdPause (MiscCmd.flags_of [MiscCmd.Execute])
    (MiscCmdMore.Mode MiscCmdMore.Normal) false
    (MiscCmdMore.mkPauseState
       {[MiscCmdMore.Normal; MiscCmdMore.CommandDuringPause]} false [])
  = (MiscCmdMore.CommandCost_default,
     MiscCmdMore.mkPauseState ∅ false
       [MiscCmdMore.EvNetworkHandlePauseChange
          {[MiscCmdMore.Normal; MiscCmdMore.CommandDuringPause]}
          MiscCmdMore.Normal;
        MiscCmdMore.EvSetWindowDirty MiscCmdMore.WC_STATUS_BAR;
        MiscCmdMore.EvSetWindowDirty MiscCmdMore.WC_MAIN_TOOLBAR]).
Proof. vm_compute. reflexivity. Qed.

(** ** More on the game dispatcher *)

Lemma HandlePacket_default_status {D} (cls : GameSocketClass D) (tag : Z)
    (s : Conn D) :
  (HandlePacket_default cls tag s).1 = NETWORK_RECV_STATUS_MALFORMED_PACKET.
Proof.
  unfold HandlePacket_default.
  by destruct (CloseConnection cls (emit (EvDebugInvalidType tag) s)).
Qed.

Lemma HandlePacket_not_overridden {D} (cls : GameSocketClass D) (p : Packet)
    (s : Conn D) :
  (forall type, PacketGameType_of_byte (packet_tag p) = Some type ->
                Receive_override cls type = None) ->
  (HandlePacket cls p s).1 = NETWORK_RECV_STATUS_MALFORMED_PACKET.
Proof.
  intros Hbase.
  destruct (PacketGameType_of_byte (packet_tag p)) as [type|] eqn:Htag.
  - destruct (has_case type) eqn:Hcase.
    + rewrite (HandlePacket_case cls p s type Htag Hcase).
      unfold Receive. rewrite (Hbase type eq_refl). reflexivity.
    + rewrite HandlePacket_no_case by (rewrite Htag; exact Hcase).
      apply HandlePacket_default_status.
  - rewrite HandlePacket_no_case by (rewrite Htag; exact I).
    apply HandlePacket_default_status.
Qed.

(** X7: the client class hands a packet to its own handler exactly for the
    packet types it overrides; every other packet is answered with
    NETWORK_RECV_STATUS_MALFORMED_PACKET, whatever the handlers and the
    close method do. In particular a client rejects every packet type that
    clients send. *)
Theorem client_rejects_unexpected_packets
    (bodies : PacketGameType -> Handler NetworkClient.ClientFields)
    (close : NetworkRecvStatus -> Conn NetworkClient.ClientFields ->
             NetworkRecvStatus * Conn NetworkClient.ClientFields)
    (p : Packet) (s : Conn NetworkClient.ClientFields) :
  let cls := NetworkClient.ClientNetworkGameSocketHandler bodies close in
  (forall type,
     PacketGameType_of_byte (packet_tag p) = Some type ->
     NetworkClient.client_overrides type = true ->
     HandlePacket cls p s = bodies type p s) /\
  ((forall type,
      PacketGameType_of_byte (packet_tag p) = Some type ->
      NetworkClient.client_overrides type = false) ->
   (HandlePacket cls p s).1 = NETWORK_RECV_STATUS_MALFORMED_PACKET) /\
  (forall type,
     client_to_server type = true ->
     packet_tag p = PacketGameType_value type ->
     (HandlePacket cls p s).1 = NETWORK_RECV_STATUS_MALFORMED_PACKET).
Proof.
  intros cls.
  assert (Hrej : (forall type,
      PacketGameType_of_byte (packet_tag p) = Some type ->
      NetworkClient.client_overrides type = false) ->
    (HandlePacket cls p s).1 = NETWORK_RECV_STATUS_MALFORMED_PACKET).
  { intros Hno. apply HandlePacket_not_overridden. intros type Htag.
    simpl. rewrite (Hno type Htag). reflexivity. }
  split; [|split; [exact Hrej|]].
  - intros type Htag Hover.
    assert (Hcase : has_case type = true) by (by destruct type).
    rewrite (HandlePacket_case cls p s type Htag Hcase).
    unfold Receive. simpl. rewrite Hover. reflexivity.
  - intros type Hsent Htag. apply Hrej. intros type' Htag'.
    rewrite Htag, PacketGameType_of_byte_value in Htag'.
    injection Htag' as <-. by destruct type.
Qed.

Lemma client_rejects_unexpected_packets_witness :
  (HandlePacket
     (NetworkClient.ClientNetworkGameSocketHandler NetworkClient.accept_all
        NetworkClient.close_returns_status)
     (mkPacket 29 [0; 1])
     (NetworkClient.playing_client NetworkClient.STATUS_ACTIVE)).1
  = NETWORK_RECV_STATUS_MALFORMED_PACKET /\
  HandlePacket
    (NetworkClient.ClientNetworkGameSocketHandler NetworkClient.accept_all
       NetworkClient.close_returns_status)
    (mkPacket 26 [])
    (NetworkClient.playing_client NetworkClient.STATUS_ACTIVE)
  = (NETWORK_RECV_STATUS_OKAY,
     NetworkClient.playing_client NetworkClient.STATUS_ACTIVE).
Proof.
  split.
  - apply (client_rejects_unexpected_packets NetworkClient.accept_all
             NetworkClient.close_returns_status (mkPacket 29 [0; 1])
             (NetworkClient.playing_client NetworkClient.STATUS_ACTIVE))
      with (type := ClientCommand); reflexivity.
  - apply (client_rejects_unexpected_packets NetworkClient.accept_all
             NetworkClient.close_returns_status (mkPacket 26 [])
             (NetworkClient.playing_client NetworkClient.STATUS_ACTIVE))
      with (type := ServerFrame); reflexivity.
Defined.

(** ** More on the receive loop of a game connection *)

Lemma handle_in_order_app {D} (cls : GameSocketClass D) (a b : list Packet)
    (s : Conn D) :
  handle_in_order cls (a ++ b) s = handle_in_order cls b (handle_in_order cls a s).
Proof. unfold handle_in_order. apply fold_left_app. Qed.

Lemma ReceivePackets_cases {D} (cls : GameSocketClass D) (queue : list Packet) :
  forall s : Conn D,
    (all_okay cls queue s /\
     ReceivePackets cls queue s =
       (NETWORK_RECV_STATUS_OKAY, handle_in_order cls queue s, [])) \/
    (exists pre p post,
       queue = pre ++ p :: post /\ all_okay cls pre s /\
       (HandlePacket cls p (handle_in_order cls pre s)).1
         <> NETWORK_RECV_STATUS_OKAY /\
       ReceivePackets cls queue s =
         ((HandlePacket cls p (handle_in_order cls pre s)).1,
          handle_in_order cls (pre ++ [p]) s, post)).
Proof.
  induction queue as [|q queue IH]; intros s.
  - left. split; [exact I | reflexivity].
  - destruct (decide ((HandlePacket cls q s).1 = NETWORK_RECV_STATUS_OKAY))
      as [Hok | Hbad].
    + destruct (IH (HandlePacket cls q s).2)
        as [[Hall Hrun] | (pre & p & post & -> & Hall & Hp & Hrun)].
      * left. split; [split; assumption|].
        by apply ReceivePackets_all_okay.
      * right. exists (q :: pre), p, post.
        split; [reflexivity|]. split; [split; assumption|].
        split; [exact Hp|].
        apply (ReceivePackets_first_failure cls (q :: pre) p post s);
          [split; assumption | exact Hp].
    + right. exists [], q, queue. split; [reflexivity|]. split; [exact I|].
      split; [exact Hbad|].
      by apply (ReceivePackets_first_failure cls [] q queue s).
Qed.

(** X8: every call of [ReceivePackets] ends in one of two ways. Either it
    returns OKAY, and then it handled the whole queue and every packet
    returned OKAY; or it returns another status, and then that is the status
    of the last packet it handled, every packet before returned OKAY, and
    the packets after are still queued. The packets handled and the packets
    left always make up the queue, in order. *)
Theorem ReceivePackets_outcome {D} (cls : GameSocketClass D)
    (queue : list Packet) (s : Conn D) :
  exists handled,
    queue = handled ++ (ReceivePackets cls queue s).2 /\
    (ReceivePackets cls queue s).1.2 = handle_in_order cls handled s /\
    (((ReceivePackets cls queue s).1.1 = NETWORK_RECV_STATUS_OKAY /\
      handled = queue /\ all_okay cls queue s) \/
     ((ReceivePackets cls queue s).1.1 <> NETWORK_RECV_STATUS_OKAY /\
      exists pre p,
        handled = pre ++ [p] /\ all_okay cls pre s /\
        (HandlePacket cls p (handle_in_order cls pre s)).1
          = (ReceivePackets cls queue s).1.1)).
Proof.
  destruct (ReceivePackets_cases cls queue s)
    as [[Hall Hrun] | (pre & p & post & -> & Hall & Hp & Hrun)];
    rewrite Hrun; simpl.
  - exists queue. split; [by rewrite app_nil_r|]. split; [reflexivity|].
    left. auto.
  - exists (pre ++ [p]). split; [by rewrite <- app_assoc|].
    split; [reflexivity|]. right. split; [exact Hp|]. exists pre, p. auto.
Qed.

(** X9: receiving in two batches is the same as receiving in one. When the
    first batch returns OKAY, receiving both batches at once gives what the
    second batch gives from the state the first one left; when the first
    batch stops early, both batches at once stop at the same packet with
    the same status and state, and the second batch stays queued behind
    what the first left. *)
Theorem ReceivePackets_in_batches {D} (cls : GameSocketClass D)
    (first second : list Packet) (s : Conn D) :
  ((ReceivePackets cls first s).1.1 = NETWORK_RECV_STATUS_OKAY ->
   ReceivePackets cls (first ++ second) s =
     ReceivePackets cls second (ReceivePackets cls first s).1.2) /\
  ((ReceivePackets cls first s).1.1 <> NETWORK_RECV_STATUS_OKAY ->
   ReceivePackets cls (first ++ second) s =
     ((ReceivePackets cls first s).1.1, (ReceivePackets cls first s).1.2,
      (ReceivePackets cls first s).2 ++ second)).
Proof.
  revert s. induction first as [|q first IH]; intros s.
  - simpl. split; [reflexivity | congruence].
  - simpl. destruct (HandlePacket cls q s) as [res s'] eqn:Hq.
    destruct (decide (res = NETWORK_RECV_STATUS_OKAY)) as [-> | Hbad].
    + apply IH.
    + simpl. split; [congruence | reflexivity].
Qed.

Lemma ReceivePackets_in_batches_witness :
  ReceivePackets picky_client
    ([mkPacket 26 [0]; mkPacket 28 [0]] ++ [mkPacket 30 [1]; mkPacket 26 [0]])
    (NetworkClient.playing_client NetworkClient.STATUS_ACTIVE)
  = ReceivePackets picky_client [mkPacket 30 [1]; mkPacket 26 [0]]
      (mkConn false true SM_NONE []
         (NetworkClient.mkClientFields NetworkClient.STATUS_ACTIVE 2)).
Proof.
  apply (ReceivePackets_in_batches picky_client
           [mkPacket 26 [0]; mkPacket 28 [0]]
           [mkPacket 30 [1]; mkPacket 26 [0]]
           (NetworkClient.playing_client NetworkClient.STATUS_ACTIVE)).
  reflexivity.
Defined.

(** X10: once a client has lost its connection and [CloseConnection] has
    run, a further [CloseConnection] does not save again: it goes straight
    to the close with NETWORK_RECV_STATUS_CONNECTION_LOST. *)
Theorem CloseConnection_saves_once {D} (cls : GameSocketClass D) (s : Conn D) :
  close_returns_given cls ->
  _network_server s = false ->
  _networking s = true ->
  CloseConnection cls (CloseConnection cls s).2 =
    CloseConnection_status cls NETWORK_RECV_STATUS_CONNECTION_LOST
      (emit (EvCloseConnection NETWORK_RECV_STATUS_CONNECTION_LOST)
         (CloseConnection cls s).2).
Proof.
  intros Hret Hserver Hnet.
  assert (Hoff : _networking (CloseConnection cls s).2 = false).
  { unfold CloseConnection, call_CloseConnection. rewrite Hserver, Hnet. simpl.
    match goal with
    | |- context [CloseConnection_status cls ?st ?s0] =>
        destruct (Hret st s0) as (_ & Hn & _)
    end.
    rewrite Hn. reflexivity. }
  unfold CloseConnection at 1. rewrite Hoff, andb_false_r. reflexivity.
Qed.

Lemma CloseConnection_saves_once_witness :
  trace (CloseConnection NetworkClient.sample_client
           (CloseConnection NetworkClient.sample_client
              (NetworkClient.playing_client NetworkClient.STATUS_ACTIVE)).2).2
  = [EvEmergencySave; EvShowErrorMessage;
     EvCloseConnection NETWORK_RECV_STATUS_CLIENT_QUIT;
     EvCloseConnection NETWORK_RECV_STATUS_CONNECTION_LOST].
Proof.
  rewrite (CloseConnection_saves_once NetworkClient.sample_client
             (NetworkClient.playing_client NetworkClient.STATUS_ACTIVE)).
  - reflexivity.
  - intros status s. simpl. repeat split.
  - reflexivity.
  - reflexivity.
Defined.

(** ** More on deferred deletion *)

(** X11: [ProcessDeferredDeletions] leaves every handler that is not on the
    deferred list as it is, running it again right away does nothing more,
    and with an empty list it does nothing at all. *)
Theorem ProcessDeferredDeletions_spares_the_rest (h : Deferred.Heap) :
  (forall p, p ∉ Deferred._deferred_deletions h ->
     Deferred.objects (Deferred.ProcessDeferredDeletions h) !! p
       = Deferred.objects h !! p) /\
  Deferred.ProcessDeferredDeletions (Deferred.ProcessDeferredDeletions h)
    = Deferred.ProcessDeferredDeletions h /\
  (Deferred._deferred_deletions h = [] ->
   Deferred.ProcessDeferredDeletions h = h).
Proof.
  split; [|split].
  - intros p Hp. unfold Deferred.ProcessDeferredDeletions. simpl.
    destruct (fold_delete_handler (Deferred._deferred_deletions h) h) as [_ Ho].
    rewrite Ho. by rewrite bool_decide_eq_false_2.
  - reflexivity.
  - intros Hnil. unfold Deferred.ProcessDeferredDeletions. rewrite Hnil.
    simpl. destruct h as [o d l]. simpl in *. subst d. reflexivity.
Qed.

Lemma ProcessDeferredDeletions_spares_the_rest_witness :
  Deferred.objects
    (Deferred.ProcessDeferredDeletions
       (Deferred.DeferDeletion 1
          (Deferred.construct 2 11
             (Deferred.construct 1 10 Deferred.empty_heap)))) !! 2%nat
  = Some (Deferred.mkSocketHandler 11 false).
Proof.
  rewrite (proj1 (ProcessDeferredDeletions_spares_the_rest
             (Deferred.DeferDeletion 1
                (Deferred.construct 2 11
                   (Deferred.construct 1 10 Deferred.empty_heap)))) 2%nat).
  - vm_compute. reflexivity.
  - simpl. intros Hin. apply list_elem_of_singleton in Hin. discriminate Hin.
Defined.

Lemma pending_iff_deferred_step (h : Deferred.Heap) (o : Deferred.Op) :
  heap_inv h -> pending_iff_deferred h ->
  Deferred.op_allowed h o = true ->
  pending_iff_deferred (Deferred.run_op h o).
Proof.
  intros [Hnd Hpend] Hiff Hok p.
  split; [|apply (heap_inv_step h o (conj Hnd Hpend) Hok)].
  destruct o as [this id | this |]; simpl in *.
  - unfold Deferred.IsPendingDeletion, Deferred.construct. simpl.
    destruct (decide (this = p)) as [-> | Hne].
    + rewrite lookup_insert_eq. discriminate.
    + rewrite lookup_insert_ne by exact Hne. apply Hiff.
  - unfold Deferred.IsPendingDeletion, Deferred.DeferDeletion. simpl.
    destruct (decide (this = p)) as [-> | Hne].
    + intros _. apply elem_of_app. right. by apply list_elem_of_singleton.
    + rewrite lookup_alter_ne by exact Hne. intros Hp.
      apply elem_of_app. left. by apply Hiff.
  - unfold Deferred.IsPendingDeletion, Deferred.ProcessDeferredDeletions. simpl.
    destruct (fold_delete_handler (Deferred._deferred_deletions h) h) as [_ Ho].
    rewrite Ho. case_bool_decide as Hin; [discriminate|].
    intros Hp. exfalso. apply Hin. by apply Hiff.
Qed.

(** X12: on every heap reached by allowed operations, [IsPendingDeletion]
    is true for exactly the handlers on the deferred list; right after
    [ProcessDeferredDeletions] no live handler is pending. *)
Theorem pending_exactly_when_deferred (ops : list Deferred.Op)
    (h : Deferred.Heap) :
  Deferred.run_allowed Deferred.empty_heap ops = Some h ->
  pending_iff_deferred h /\
  forall p, Deferred.IsPendingDeletion p (Deferred.ProcessDeferredDeletions h)
            <> Some true.
Proof.
  assert (Hgen : forall ops h0 h1,
            heap_inv h0 -> pending_iff_deferred h0 ->
            Deferred.run_allowed h0 ops = Some h1 ->
            heap_inv h1 /\ pending_iff_deferred h1).
  { clear. induction ops as [|o ops IH]; intros h0 h1 Hinv Hiff Hrun;
      simpl in Hrun.
    - injection Hrun as <-. auto.
    - destruct (Deferred.op_allowed h0 o) eqn:Hok; [|discriminate Hrun].
      apply (IH (Deferred.run_op h0 o) h1);
        [by apply heap_inv_step | by apply pending_iff_deferred_step | exact Hrun]. }
  intros Hrun.
  assert (Hempty : pending_iff_deferred Deferred.empty_heap).
  { intros p. unfold Deferred.IsPendingDeletion. simpl.
    rewrite lookup_empty. simpl. split; [discriminate | set_solver]. }
  destruct (Hgen ops _ _ heap_inv_empty Hempty Hrun) as [Hinv Hiff].
  split; [exact Hiff|]. intros p.
  pose proof (pending_iff_deferred_step h Deferred.OpProcessDeferredDeletions
                Hinv Hiff eq_refl p) as [Hp _].
  intros Htrue. specialize (Hp Htrue). simpl in Hp. set_solver.
Qed.

Lemma pending_exactly_when_deferred_witness :
  pending_iff_deferred
    (Deferred.DeferDeletion 1
       (Deferred.construct 2 11
          (Deferred.construct 1 10 Deferred.empty_heap))).
Proof.
  apply (pending_exactly_when_deferred
           [Deferred.OpConstruct 1 10; Deferred.OpConstruct 2 11;
            Deferred.OpDeferDeletion 1]).
  vm_compute. reflexivity.
Defined.

(** ** More on the receive loop of a coordinator connection *)

Lemma c_handle_in_order_app {D} (cls : TcpCoordinator.CoordinatorClass D)
    (a b : list Packet) (s : TcpCoordinator.CConn D) :
  c_handle_in_order cls (a ++ b) s
    = c_handle_in_order cls b (c_handle_in_order cls a s).
Proof. unfold c_handle_in_order. apply fold_left_app. Qed.

Lemma ReceivePackets_loop_continue {D} (cls : TcpCoordinator.CoordinatorClass D)
    (pre : list Packet) :
  forall (i : Z) (rest : list Packet) (s : TcpCoordinator.CConn D),
    all_continue cls pre s ->
    Z.of_nat (length pre) <= i - 1 ->
    TcpCoordinator.ReceivePackets_loop cls i (pre ++ rest) s =
      TcpCoordinator.ReceivePackets_loop cls (i - Z.of_nat (length pre)) rest
        (c_handle_in_order cls pre s).
Proof.
  induction pre as [|p pre IH]; intros i rest s Hall Hlen.
  - simpl. f_equal. lia.
  - destruct Hall as [Hp Hall].
    cbn [app TcpCoordinator.ReceivePackets_loop].
    cbn [length] in Hlen.
    destruct (Z.eqb_spec (i - 1) 0) as [? | _]; [lia|].
    destruct (TcpCoordinator.HandlePacket cls p s) as [cont s'] eqn:Hh.
    simpl in Hp, Hall. subst cont. cbn [negb].
    rewrite (IH (i - 1) rest s' Hall ltac:(lia)).
    unfold c_handle_in_order. cbn [fold_left length]. rewrite Hh. simpl.
    f_equal. lia.
Qed.

(** X13: the coordinator's [ReceivePackets] stops at the first packet whose
    handler returns false: when the packets before it (at most 40) all
    returned true, it handles them and that packet in order, returns true,
    and leaves every later packet in the queue. *)
Theorem coordinator_ReceivePackets_stops_on_false {D}
    (cls : TcpCoordinator.CoordinatorClass D) (pre : list Packet) (p : Packet)
    (post : list Packet) (s : TcpCoordinator.CConn D) :
  all_continue cls pre s ->
  (length pre <= 40)%nat ->
  (TcpCoordinator.HandlePacket cls p (c_handle_in_order cls pre s)).1 = false ->
  TcpCoordinator.ReceivePackets cls (pre ++ p :: post) s =
    (true, c_handle_in_order cls (pre ++ [p]) s, post).
Proof.
  intros Hall Hlen Hstop. unfold TcpCoordinator.ReceivePackets.
  rewrite (ReceivePackets_loop_continue cls pre) by
    (try assumption; unfold TcpCoordinator.MAX_PACKETS_TO_RECEIVE; lia).
  unfold TcpCoordinator.MAX_PACKETS_TO_RECEIVE.
  cbn [TcpCoordinator.ReceivePackets_loop].
  destruct (Z.eqb_spec (42 - Z.of_nat (length pre) - 1) 0) as [? | _]; [lia|].
  rewrite c_handle_in_order_app.
  set (s1 := c_handle_in_order cls pre s) in *.
  change (c_handle_in_order cls [p] s1)
    with (TcpCoordinator.HandlePacket cls p s1).2.
  destruct (TcpCoordinator.HandlePacket cls p s1) as [cont s'] eqn:Hh.
  simpl in Hstop. subst cont. reflexivity.
Qed.

Lemma coordinator_ReceivePackets_stops_on_false_witness :
  TcpCoordinator.ReceivePackets
    (TcpCoordinator.mkCoordinatorClass unit TcpCoordinator.cast_in_switch_order
       (fun type => match type with
                    | TcpCoordinator.GameCoordinatorListing =>
                        Some (fun _ s => (true, s))
                    | _ => None
                    end))
    ([mkPacket 5 []; mkPacket 5 []] ++ mkPacket 0 [] :: [mkPacket 5 []])
    (TcpCoordinator.mkCConn [] tt)
  = (true,
     TcpCoordinator.mkCConn
       [TcpCoordinator.CDebugIllegalType TcpCoordinator.GameCoordinatorError] tt,
     [mkPacket 5 []]).
Proof.
  apply (coordinator_ReceivePackets_stops_on_false
           (TcpCoordinator.mkCoordinatorClass unit
              TcpCoordinator.cast_in_switch_order
              (fun type => match type with
                           | TcpCoordinator.GameCoordinatorListing =>
                               Some (fun _ s => (true, s))
                           | _ => None
                           end))
           [mkPacket 5 []; mkPacket 5 []] (mkPacket 0 []) [mkPacket 5 []]
           (TcpCoordinator.mkCConn [] tt)).
  - simpl. repeat split.
  - simpl. lia.
  - reflexivity.
Defined.

(** X14: when every handler returns true, one call of the coordinator's
    [ReceivePackets] handles the whole queue if it holds at most 41 packets
    (returning whether there was any), and otherwise exactly the first 41,
    returning true and leaving the rest queued for the next call. *)
Theorem coordinator_ReceivePackets_takes_41 {D}
    (cls : TcpCoordinator.CoordinatorClass D) (queue rest : list Packet)
    (s : TcpCoordinator.CConn D) :
  all_continue cls queue s ->
  ((length queue <= 41)%nat ->
   TcpCoordinator.ReceivePackets cls queue s =
     (negb (Nat.eqb (length queue) 0), c_handle_in_order cls queue s, [])) /\
  (length queue = 41%nat ->
   TcpCoordinator.ReceivePackets cls (queue ++ rest) s =
     (true, c_handle_in_order cls queue s, rest)).
Proof.
  intros Hall.
  assert (Hcap : length queue = 41%nat ->
    TcpCoordinator.ReceivePackets cls (queue ++ rest) s =
      (true, c_handle_in_order cls queue s, rest)).
  { intros Hlen. unfold TcpCoordinator.ReceivePackets.
    rewrite (ReceivePackets_loop_continue cls queue) by
      (try assumption; unfold TcpCoordinator.MAX_PACKETS_TO_RECEIVE; lia).
    unfold TcpCoordinator.MAX_PACKETS_TO_RECEIVE. rewrite Hlen.
    destruct rest; reflexivity. }
  split; [|exact Hcap]. intros Hlen.
  unfold TcpCoordinator.ReceivePackets.
  rewrite <- (app_nil_r queue) at 1.
  rewrite (ReceivePackets_loop_continue cls queue) by
    (try assumption; unfold TcpCoordinator.MAX_PACKETS_TO_RECEIVE; lia).
  unfold TcpCoordinator.MAX_PACKETS_TO_RECEIVE.
  cbn [TcpCoordinator.ReceivePackets_loop].
  destruct (Z.eqb_spec (42 - Z.of_nat (length queue) - 1) 0) as [H0 | H0].
  - assert (length queue = 41%nat) as -> by lia. reflexivity.
  - unfold TcpCoordinator.MAX_PACKETS_TO_RECEIVE.
    destruct (Z.eqb_spec (42 - Z.of_nat (length queue) - 1) (42 - 1)) as [H1 | H1].
    + assert (length queue = 0%nat) as -> by lia. reflexivity.
    + destruct (length queue) eqn:Hn; [lia | reflexivity].
Qed.

Lemma coordinator_ReceivePackets_takes_41_witness :
  TcpCoordinator.ReceivePackets TcpCoordinator.sample_coordinator
    (repeat (mkPacket 3 []) 41 ++ repeat (mkPacket 4 []) 9)
    (TcpCoordinator.mkCConn [] tt)
  = (true, TcpCoordinator.mkCConn [] tt, repeat (mkPacket 4 []) 9).
Proof.
  apply (coordinator_ReceivePackets_takes_41 TcpCoordinator.sample_coordinator
           (repeat (mkPacket 3 []) 41) (repeat (mkPacket 4 []) 9)
           (TcpCoordinator.mkCConn [] tt)).
  - vm_compute. repeat split.
  - reflexivity.
Defined.

(** ** Generic feature callbacks *)

Lemma resolve_first_answer (CALLBACK_FAILED : Z)
    (ResolveCallback : NewGRFGeneric.GenericResolverObject ->
                       Z * NewGRFGeneric.GenericResolverObject)
    (v7 v8 : Z) (l : list NewGRFGeneric.GenericCallback) :
  forall object,
    let res := NewGRFGeneric.resolve_first CALLBACK_FAILED ResolveCallback
                 l v7 v8 object in
    (res.1.1 = None <-> res.1.2 = CALLBACK_FAILED) /\
    (forall f, res.1.1 = Some f ->
               exists it, it ∈ l /\ NewGRFGeneric.file it = f).
Proof.
  induction l as [|it l IH]; intros object; simpl.
  - split; [tauto | discriminate].
  - destruct (ResolveCallback (NewGRFGeneric.prepare it v7 v8 object))
      as [result object'].
    destruct (Z.eqb_spec result CALLBACK_FAILED) as [Hf | Hok].
    + destruct (IH object') as [Hiff Hin]. split; [exact Hiff|].
      intros f Hf'. destruct (Hin f Hf') as (it' & Hit & Hfile).
      exists it'. split; [set_solver | exact Hfile].
    + simpl. split; [split; [discriminate | congruence]|].
      intros f [= <-]. exists it. split; [set_solver | reflexivity].
Qed.

(** X15: the callback added last is asked first. After [AddGenericCallback]
    for a supported feature, a lookup for that feature first resolves the
    new callback and returns its file and value unless it fails, and only
    then goes on to the callbacks that were there before; lookups for other
    features are not affected; an unsupported feature is only logged. *)
Theorem AddGenericCallback_newest_first (CALLBACK_FAILED : Z)
    (ResolveCallback : NewGRFGeneric.GenericResolverObject ->
                       Z * NewGRFGeneric.GenericResolverObject)
    (feature : Z) (f : NewGRFGeneric.GRFFile) (grp : Z)
    (st : NewGRFGeneric.Callbacks)
    (object : NewGRFGeneric.GenericResolverObject) (v7 v8 : Z) :
  0 <= feature ->
  (Z.of_nat (length (NewGRFGeneric._gcl st)) <= feature ->
   NewGRFGeneric._gcl (NewGRFGeneric.AddGenericCallback feature f grp st)
     = NewGRFGeneric._gcl st /\
   NewGRFGeneric.unsupported (NewGRFGeneric.AddGenericCallback feature f grp st)
     = NewGRFGeneric.unsupported st ++ [feature]) /\
  (feature < Z.of_nat (length (NewGRFGeneric._gcl st)) ->
   (forall other, 0 <= other -> other <> feature ->
      NewGRFGeneric.GetGenericCallbackResult CALLBACK_FAILED ResolveCallback
        other object v7 v8 (NewGRFGeneric.AddGenericCallback feature f grp st)
      = NewGRFGeneric.GetGenericCallbackResult CALLBACK_FAILED ResolveCallback
          other object v7 v8 st) /\
   NewGRFGeneric.GetGenericCallbackResult CALLBACK_FAILED ResolveCallback
     feature object v7 v8 (NewGRFGeneric.AddGenericCallback feature f grp st)
   = (if (ResolveCallback
            (NewGRFGeneric.prepare (NewGRFGeneric.mkGenericCallback f grp)
               v7 v8 object)).1 =? CALLBACK_FAILED
      then NewGRFGeneric.GetGenericCallbackResult CALLBACK_FAILED
             ResolveCallback feature
             (ResolveCallback
                (NewGRFGeneric.prepare (NewGRFGeneric.mkGenericCallback f grp)
                   v7 v8 object)).2 v7 v8 st
      else Some ((Some f,
                  (ResolveCallback
                     (NewGRFGeneric.prepare
                        (NewGRFGeneric.mkGenericCallback f grp) v7 v8 object)).1),
                 (ResolveCallback
                    (NewGRFGeneric.prepare
                       (NewGRFGeneric.mkGenericCallback f grp) v7 v8 object)).2))).
Proof.
  intros Hpos. unfold NewGRFGeneric.AddGenericCallback. split.
  - intros Hbig.
    destruct (Z.leb_spec (Z.of_nat (length (NewGRFGeneric._gcl st))) feature);
      [|lia]. split; reflexivity.
  - intros Hin.
    destruct (Z.leb_spec (Z.of_nat (length (NewGRFGeneric._gcl st))) feature);
      [lia|].
    unfold NewGRFGeneric.GetGenericCallbackResult. simpl.
    rewrite length_alter. split.
    + intros other Hother Hne.
      destruct (Z.of_nat (length (NewGRFGeneric._gcl st)) <=? other);
        [reflexivity|].
      rewrite list_lookup_alter_ne by lia. reflexivity.
    + destruct (Z.leb_spec (Z.of_nat (length (NewGRFGeneric._gcl st))) feature);
        [lia|].
      rewrite list_lookup_alter_eq.
      destruct (NewGRFGeneric._gcl st !! Z.to_nat feature) as [l|] eqn:Hl.
      * simpl.
        destruct (ResolveCallback
                    (NewGRFGeneric.prepare
                       (NewGRFGeneric.mkGenericCallback f grp) v7 v8 object))
          as [result object'].
        simpl. destruct (result =? CALLBACK_FAILED); reflexivity.
      * apply lookup_ge_None in Hl. lia.
Qed.

Lemma AddGenericCallback_newest_first_witness :
  let resolve := fun o : NewGRFGeneric.GenericResolverObject =>
                   (default 0 (NewGRFGeneric.root_spritegroup o), o) in
  let st := NewGRFGeneric.AddGenericCallback 1
              (NewGRFGeneric.mkGRFFile 7 7) 40
              (NewGRFGeneric.mkCallbacks [[]; []; []] []) in
  let object := NewGRFGeneric.mkGenericResolverObject 0 None None 0
                  (NewGRFGeneric.mkGenericScopeResolver 0 0 0 0 0 0 0 0 1 false) in
  fst <$> NewGRFGeneric.GetGenericCallbackResult 65535 resolve 1 object 3 4
            (NewGRFGeneric.AddGenericCallback 1
               (NewGRFGeneric.mkGRFFile 8 8) 50 st)
  = Some (Some (NewGRFGeneric.mkGRFFile 8 8), 50).
Proof.
  intros resolve st object.
  destruct (AddGenericCallback_newest_first 65535 resolve 1
              (NewGRFGeneric.mkGRFFile 8 8) 50 st object 3 4) as [_ Hin].
  - lia.
  - destruct Hin as [_ Hnew]; [vm_compute; reflexivity|].
    rewrite Hnew. reflexivity.
Defined.

(** X16: what [GetGenericCallbackResult] answers. It names a file exactly
    when the value is not [CALLBACK_FAILED], and the file it names is the
    file of a callback registered for that feature; after
    [ResetGenericCallbacks] every lookup for a supported feature fails
    without touching the resolver object. *)
Theorem GetGenericCallbackResult_answer (CALLBACK_FAILED : Z)
    (ResolveCallback : NewGRFGeneric.GenericResolverObject ->
                       Z * NewGRFGeneric.GenericResolverObject)
    (feature : Z) (object : NewGRFGeneric.GenericResolverObject) (v7 v8 : Z)
    (st : NewGRFGeneric.Callbacks) :
  0 <= feature < Z.of_nat (length (NewGRFGeneric._gcl st)) ->
  (exists res l,
     NewGRFGeneric.GetGenericCallbackResult CALLBACK_FAILED ResolveCallback
       feature object v7 v8 st = Some res /\
     NewGRFGeneric._gcl st !! Z.to_nat feature = Some l /\
     (res.1.1 = None <-> res.1.2 = CALLBACK_FAILED) /\
     (forall f, res.1.1 = Some f ->
                exists it, it ∈ l /\ NewGRFGeneric.file it = f)) /\
  NewGRFGeneric.GetGenericCallbackResult CALLBACK_FAILED ResolveCallback
    feature object v7 v8 (NewGRFGeneric.ResetGenericCallbacks st)
  = Some ((None, CALLBACK_FAILED), object).
Proof.
  intros Hin. unfold NewGRFGeneric.GetGenericCallbackResult. split.
  - destruct (Z.leb_spec (Z.of_nat (length (NewGRFGeneric._gcl st))) feature);
      [lia|].
    destruct (NewGRFGeneric._gcl st !! Z.to_nat feature) as [l|] eqn:Hl;
      [|apply lookup_ge_None in Hl; lia].
    simpl. eexists _, l. split; [reflexivity|]. split; [reflexivity|].
    apply resolve_first_answer.
  - simpl. rewrite length_map.
    destruct (Z.leb_spec (Z.of_nat (length (NewGRFGeneric._gcl st))) feature);
      [lia|].
    destruct (NewGRFGeneric._gcl st !! Z.to_nat feature) as [l|] eqn:Hl;
      [|apply lookup_ge_None in Hl; lia].
    change (List.map (fun _ => []) (NewGRFGeneric._gcl st))
      with ((fun _ : list NewGRFGeneric.GenericCallback =>
               @nil NewGRFGeneric.GenericCallback) <$> NewGRFGeneric._gcl st).
    rewrite list_lookup_fmap, Hl. reflexivity.
Qed.

Lemma GetGenericCallbackResult_answer_witness :
  let resolve := fun o : NewGRFGeneric.GenericResolverObject =>
                   (default 0 (NewGRFGeneric.root_spritegroup o), o) in
  let st := NewGRFGeneric.AddGenericCallback 1
              (NewGRFGeneric.mkGRFFile 7 7) 40
              (NewGRFGeneric.mkCallbacks [[]; []; []] []) in
  let object := NewGRFGeneric.mkGenericResolverObject 0 None None 0
                  (NewGRFGeneric.mkGenericScopeResolver 0 0 0 0 0 0 0 0 1 false) in
  NewGRFGeneric.GetGenericCallbackResult 65535 resolve 1 object 3 4
    (NewGRFGeneric.ResetGenericCallbacks st)
  = Some ((None, 65535), object).
Proof.
  intros resolve st object.
  apply (GetGenericCallbackResult_answer 65535 resolve 1 object 3 4 st).
  vm_compute. split; [discriminate | reflexivity].
Defined.



(** ** Refit orders under autoreplace *)



Lemma first_incompatible_none_verifies (mask_a mask_b : Z)
    (os : list Autoreplace.Order) :
  forall i, 0 <= i ->
    Autoreplace.first_incompatible mask_b i os = -1 ->
    Autoreplace.verify_orders mask_a mask_b os = true.
Proof.
  induction os as [|o os IH]; intros i Hi; simpl; [reflexivity|].
  destruct (Autoreplace.IsRefit o); simpl.
  - destruct (Autoreplace.HasBit mask_b (Autoreplace.GetRefitCargo o)); simpl.
    + intros H. rewrite (IH (i + 1) ltac:(lia) H).
      by destruct (Autoreplace.IsAutoRefit o),
           (Autoreplace.HasBit mask_a (Autoreplace.GetRefitCargo o)).
    + lia.
  - apply IH. lia.
Qed.

(** X19: the two refit checks agree in one direction: when
    [GetIncompatibleRefitOrderIdForAutoreplace] finds no incompatible order
    (-1), [VerifyAutoreplaceRefitForOrders] holds for the same vehicle and
    engine. *)
Theorem no_incompatible_order_verifies
    (GetUnionOfArticulatedRefitMasks : Z -> bool -> Z)
    (First : Autoreplace.OrderedVehicle -> Autoreplace.OrderedVehicle)
    (v : Autoreplace.OrderedVehicle) (new_engine : Z) :
  Autoreplace.GetIncompatibleRefitOrderIdForAutoreplace
    GetUnionOfArticulatedRefitMasks First v new_engine = -1 ->
  Autoreplace.VerifyAutoreplaceRefitForOrders
    GetUnionOfArticulatedRefitMasks First v new_engine = true.
Proof.
  unfold Autoreplace.GetIncompatibleRefitOrderIdForAutoreplace,
    Autoreplace.VerifyAutoreplaceRefitForOrders.
  destruct (Autoreplace.orders (Autoreplace.order_holder First v)) as [os|];
    simpl.
  - apply first_incompatible_none_verifies. lia.
  - reflexivity.
Qed.

Lemma no_incompatible_order_verifies_witness :
  Autoreplace.VerifyAutoreplaceRefitForOrders
    (fun engine _ => if engine =? 1 then 6 else 14) (fun v => v)
    (Autoreplace.mkOrderedVehicle Autoreplace.VEH_ROAD 1
       (Some [Autoreplace.mkOrder true false 1;
              Autoreplace.mkOrder false false 0;
              Autoreplace.mkOrder true true 2])) 2
  = true.
Proof.
  apply no_incompatible_order_verifies. vm_compute. reflexivity.
Defined.

(** The second refit order cannot be kept by an engine that only takes
    cargo 1. *)
Example GetIncompatibleRefitOrderId_example :
  Autoreplace.GetIncompatibleRefitOrderIdForAutoreplace
    (fun _ _ => 2) (fun v => v)
    (Autoreplace.mkOrderedVehicle Autoreplace.VEH_ROAD 1
       (Some [Autoreplace.mkOrder true false 1;
              Autoreplace.mkOrder false false 0;
              Autoreplace.mkOrder true true 2])) 2
  = 2.
Proof. reflexivity. Qed.

(** An auto-refit order (cargo 0xFD) is not skipped: it is tested at bit 61
    of the mask, and is the incompatible order exactly when that bit is
    clear. *)
Example GetIncompatibleRefitOrderId_auto_refit :
  Autoreplace.GetIncompatibleRefitOrderIdForAutoreplace
    (fun _ _ => 2 ^ 61) (fun v => v)
    (Autoreplace.mkOrderedVehicle Autoreplace.VEH_ROAD 1
       (Some [Autoreplace.mkOrder true true 253])) 2
  = -1 /\
  Autoreplace.GetIncompatibleRefitOrderIdForAutoreplace
    (fun _ _ => 2 ^ 61 - 1) (fun v => v)
    (Autoreplace.mkOrderedVehicle Autoreplace.VEH_ROAD 1
       (Some [Autoreplace.mkOrder true true 253])) 2
  = 0.
Proof. split; reflexivity. Qed.

(** ** Cargo capacity of a chain *)

Lemma fold_left_seq_inv {A} (f : A -> nat -> A) (P : nat -> A -> Prop)
    (n : nat) (a : A) :
  P 0%nat a ->
  (forall j x, (j < n)%nat -> P j x -> P (S j) (f x j)) ->
  P n (fold_left f (seq 0 n) a).
Proof.
  intros H0 Hstep. induction n as [|n IH].
  - exact H0.
  - rewrite seq_S, fold_left_app. simpl. apply Hstep; [lia|].
    apply IH. intros j x Hj. apply Hstep. lia.
Qed.

Lemma sumZ_cons (g : AutoreplaceCargo.Vehicle -> Z) x l :
  AutoreplaceCargo.sumZ g (x :: l) = g x + AutoreplaceCargo.sumZ g l.
Proof. reflexivity. Qed.

Lemma sumZ_alter (g : AutoreplaceCargo.Vehicle -> Z)
    (f : AutoreplaceCargo.Vehicle -> AutoreplaceCargo.Vehicle)
    (l : list AutoreplaceCargo.Vehicle) :
  forall (i : nat) v, l !! i = Some v ->
    AutoreplaceCargo.sumZ g (alter f i l)
      = AutoreplaceCargo.sumZ g l - g v + g (f v).
Proof.
  induction l as [|x l IH]; intros [|i] v Hl; try discriminate.
  - injection Hl as ->.
    change (alter f 0%nat (v :: l)) with (f v :: l).
    rewrite !sumZ_cons. lia.
  - change (alter f (S i) (x :: l)) with (x :: alter f i l).
    rewrite !sumZ_cons, (IH i v Hl). lia.
Qed.

Lemma sumZ_le (g h : AutoreplaceCargo.Vehicle -> Z)
    (l : list AutoreplaceCargo.Vehicle) :
  (forall (k : nat) v, l !! k = Some v -> g v <= h v) ->
  AutoreplaceCargo.sumZ g l <= AutoreplaceCargo.sumZ h l.
Proof.
  induction l as [|x l IH]; intros Hle; [reflexivity|].
  rewrite !sumZ_cons.
  pose proof (Hle 0%nat x eq_refl).
  pose proof (IH (fun k v Hk => Hle (S k) v Hk)). lia.
Qed.

Lemma sumZ_lt (g h : AutoreplaceCargo.Vehicle -> Z)
    (l : list AutoreplaceCargo.Vehicle) :
  (forall (k : nat) v, l !! k = Some v -> g v <= h v) ->
  forall (i : nat) v, l !! i = Some v -> g v < h v ->
  AutoreplaceCargo.sumZ g l < AutoreplaceCargo.sumZ h l.
Proof.
  induction l as [|x l IH]; intros Hle [|i] v Hl Hlt; try discriminate.
  - injection Hl as ->. rewrite !sumZ_cons.
    pose proof (sumZ_le g h l (fun k v Hk => Hle (S k) v Hk)). lia.
  - rewrite !sumZ_cons.
    pose proof (Hle 0%nat x eq_refl).
    pose proof (IH (fun k v Hk => Hle (S k) v Hk) i v Hl Hlt). lia.
Qed.

Lemma sumZ_ext (g : AutoreplaceCargo.Vehicle -> Z)
    (a : list AutoreplaceCargo.Vehicle) :
  forall b, length b = length a ->
  (forall (k : nat) va vb, a !! k = Some va -> b !! k = Some vb ->
     g vb = g va) ->
  AutoreplaceCargo.sumZ g b = AutoreplaceCargo.sumZ g a.
Proof.
  induction a as [|x a IH]; intros [|y b] Hlen Hext; try discriminate.
  - reflexivity.
  - rewrite !sumZ_cons.
    rewrite (Hext 0%nat x y eq_refl eq_refl).
    rewrite (IH b); [reflexivity| simpl in Hlen; lia |].
    intros k va vb Ha Hb. apply (Hext (S k) va vb Ha Hb).
Qed.

Section CargoCapacity.
Import AutoreplaceCargo CargoProps.

Lemma capacity_moved_within c c' t :
  moved_within c c' -> capacity t c' = capacity t c.
Proof.
  intros [Hlen Hk]. apply sumZ_ext; [exact Hlen|].
  intros k va vb Ha Hb. destruct (Hk k va vb Ha Hb) as (-> & -> & _).
  reflexivity.
Qed.

Lemma moved_within_refl c : moved_within c c.
Proof.
  split; [reflexivity|]. intros k v v' H1 H2.
  rewrite H1 in H2. injection H2 as <-. lia.
Qed.

Lemma moved_within_trans c c' c'' :
  moved_within c c' -> moved_within c' c'' -> moved_within c c''.
Proof.
  intros [L1 H1] [L2 H2]. split; [congruence|].
  intros k v v'' Hv Hv''.
  destruct (lookup_lt_is_Some_2 c' k) as [v' Hv'].
  { rewrite L1. apply (lookup_lt_Some _ _ _ Hv). }
  destruct (H1 k v v' Hv Hv') as (T1 & C1 & B1).
  destruct (H2 k v' v'' Hv' Hv'') as (T2 & C2 & B2).
  split; [congruence|]. split; [congruence|]. lia.
Qed.

Lemma settles_refl c : settles c c.
Proof.
  split; [apply moved_within_refl|]. intros t. split; [lia|reflexivity].
Qed.

Lemma settles_trans c c' c'' :
  settles c c' -> settles c' c'' -> settles c c''.
Proof.
  intros [M1 T1] [M2 T2]. split; [apply (moved_within_trans _ _ _ M1 M2)|].
  intros t. destruct (T1 t) as [A1 B1]. destruct (T2 t) as [A2 B2].
  split; [lia|]. intros Hcap.
  rewrite <- (B1 Hcap). apply B2.
  rewrite (capacity_moved_within c c' t M1), (B1 Hcap). exact Hcap.
Qed.

Lemma total_set_count t n v :
  (if cargo_type (set_count n v) =? t then cargo_count (set_count n v) else 0)
  = if cargo_type v =? t then n else 0.
Proof. reflexivity. Qed.

Lemma spread_step_inv c i s j st :
  inner_inv c i s j st -> inner_inv c i s (S j) (spread_step i st j).
Proof.
  destruct st as [c1 ts].
  intros (Hlen & Hts & (s1 & Hs1 & Hty & Hcap & Hcnt & Hle) & Hoth & Htot & Hfull).
  simpl in *. unfold spread_step.
  destruct (Z.eqb_spec ts 0) as [Hz|Hnz].
  { repeat (split; [first [assumption | eauto 10]|]). left. exact Hz. }
  destruct Hfull as [Hz|Hfull]; [contradiction|].
  rewrite Hs1. destruct (c1 !! j) as [d|] eqn:Hd.
  2:{ split; [exact Hlen|]. split; [exact Hts|].
      split; [exists s1; auto|]. split; [exact Hoth|]. split; [exact Htot|].
      right. simpl. intros k v' Hk Hki Hv' Hty'.
      destruct (decide (k = j)) as [->|Hkj]; [congruence|].
      apply (Hfull k v'); [lia|assumption..]. }
  destruct ((cargo_cap d <=? cargo_count d)
            || negb (cargo_type d =? cargo_type s1)) eqn:Hskip.
  { split; [exact Hlen|]. split; [exact Hts|].
    split; [exists s1; auto|]. split; [exact Hoth|]. split; [exact Htot|].
    right. simpl. intros k v' Hk Hki Hv' Hty'.
    destruct (decide (k = j)) as [->|Hkj].
    - rewrite Hd in Hv'. injection Hv' as <-.
      apply orb_true_iff in Hskip as [H|H]; [lia|].
      apply negb_true_iff in H. lia.
    - apply (Hfull k v'); [lia|assumption..]. }
  apply orb_false_iff in Hskip as [Hroom Hsame].
  apply negb_false_iff in Hsame.
  apply Z.leb_gt in Hroom. apply Z.eqb_eq in Hsame.
  assert (Hji : j <> i).
  { intros ->. rewrite Hs1 in Hd. injection Hd as <-. lia. }
  set (amount := Z.min ts (cargo_cap d - cargo_count d)).
  assert (Ham : 0 < amount <= ts /\ amount <= cargo_cap d - cargo_count d)
    by (unfold amount; lia).
  unfold Shift, inner_inv. cbn [fst snd].
  set (fm := fun v => set_count (cargo_count v - amount) v).
  set (fp := fun v => set_count (cargo_count v + amount) v).
  assert (Hd' : alter fm i c1 !! j = Some d)
    by (rewrite list_lookup_alter_ne by congruence; exact Hd).
  split; [rewrite !length_alter; exact Hlen|].
  split; [lia|].
  split.
  { exists (fm s1). rewrite list_lookup_alter_ne by congruence.
    rewrite list_lookup_alter_eq, Hs1. simpl.
    repeat split; [assumption..| lia | lia]. }
  split.
  { intros k v v' Hki Hv Hv'.
    destruct (decide (k = j)) as [->|Hkj].
    - rewrite list_lookup_alter_eq, Hd' in Hv'. injection Hv' as <-.
      destruct (Hoth j v d Hki Hv Hd) as (T & C & B). simpl.
      split; [exact T|]. split; [exact C|]. lia.
    - rewrite list_lookup_alter_ne in Hv' by congruence.
      rewrite list_lookup_alter_ne in Hv' by congruence.
      apply (Hoth k v v' Hki Hv Hv'). }
  split.
  { intros t. rewrite <- (Htot t). unfold total.
    rewrite (sumZ_alter _ fp _ j d Hd').
    rewrite (sumZ_alter _ fm _ i s1 Hs1).
    unfold fp, fm. rewrite !total_set_count. rewrite Hsame.
    destruct (cargo_type s1 =? t); lia. }
  destruct (Z.eq_dec (ts - amount) 0) as [He|Hne]; [left; exact He|].
  right. intros k v' Hk Hki Hv' Hty'.
  destruct (decide (k = j)) as [->|Hkj].
  - rewrite list_lookup_alter_eq, Hd' in Hv'. injection Hv' as <-.
    simpl. lia.
  - rewrite !list_lookup_alter_ne in Hv' by congruence.
    apply (Hfull k v'); [lia|assumption..].
Qed.

Lemma check_step_settles c i :
  settles c (check_step c i) /\
  forall s', check_step c i !! i = Some s' -> fits s'.
Proof.
  unfold check_step. destruct (c !! i) as [s|] eqn:Hs.
  2:{ split; [apply settles_refl|]. intros s' H. congruence. }
  destruct (Z.leb_spec (cargo_count s) (cargo_cap s)) as [Hfit|Hover].
  { split; [apply settles_refl|]. intros s' H. rewrite Hs in H.
    injection H as <-. exact Hfit. }
  assert (Hinv : inner_inv c i s (length c)
            (fold_left (spread_step i) (seq 0 (length c))
               (c, cargo_count s - cargo_cap s))).
  { apply (fold_left_seq_inv (spread_step i) (inner_inv c i s)).
    - unfold inner_inv. cbn [fst snd].
      split; [reflexivity|]. split; [lia|].
      split; [exists s; repeat split; [assumption | lia | lia]|].
      split.
      { intros k v v' _ Hv Hv'. rewrite Hv in Hv'. injection Hv' as <-. lia. }
      split; [reflexivity|]. right. intros k v' Hk. lia.
    - intros j x _ H. apply spread_step_inv. exact H. }
  destruct (fold_left (spread_step i) (seq 0 (length c))
              (c, cargo_count s - cargo_cap s)) as [c1 ts].
  destruct Hinv as (Hlen & Hts & (s1 & Hs1 & Hty & Hcap & Hcnt & Hle)
                    & Hoth & Htot & Hfull).
  cbn [fst snd] in *. rewrite Hs1.
  assert (Hshape : forall (k : nat) v v', c !! k = Some v ->
            c1 !! k = Some v' ->
            cargo_type v' = cargo_type v /\ cargo_cap v' = cargo_cap v).
  { intros k v v' Hv Hv'. destruct (decide (k = i)) as [->|Hki].
    - rewrite Hs in Hv. rewrite Hs1 in Hv'.
      injection Hv as <-. injection Hv' as <-. auto.
    - destruct (Hoth k v v' Hki Hv Hv') as (T & C & _). auto. }
  destruct (Z.ltb_spec (cargo_cap s1) (cargo_count s1)) as [Hleft|Hnone].
  - unfold Truncate.
    set (ft := fun v => set_count
                 (cargo_count v - (cargo_count s1 - cargo_cap s1)) v).
    split; [split; [split|]|].
    + rewrite length_alter. exact Hlen.
    + intros k v v' Hv Hv'. destruct (decide (k = i)) as [->|Hki].
      * rewrite list_lookup_alter_eq, Hs1 in Hv'. injection Hv' as <-.
        rewrite Hs in Hv. injection Hv as <-. simpl.
        split; [exact Hty|]. split; [exact Hcap|]. lia.
      * rewrite list_lookup_alter_ne in Hv' by congruence.
        destruct (Hoth k v v' Hki Hv Hv') as (T & C & B).
        split; [exact T|]. split; [exact C|]. lia.
    + intros t. rewrite <- (Htot t).
      assert (Hsum : total t (alter ft i c1)
                = total t c1
                  - (if cargo_type s1 =? t then cargo_count s1 else 0)
                  + (if cargo_type s1 =? t then cargo_cap s1 else 0)).
      { unfold total. rewrite (sumZ_alter _ ft _ i s1 Hs1).
        unfold ft. rewrite total_set_count.
        destruct (cargo_type s1 =? t); lia. }
      rewrite Hsum. clear Hsum.
      destruct (Z.eqb_spec (cargo_type s1) t) as [Ht|Ht]; cbv iota;
        [|split; lia].
      split; [lia|]. intros Hroom. exfalso.
      assert (Hc : capacity t c1 = capacity t c).
      { apply sumZ_ext; [exact Hlen|]. intros k va vb Ha Hb.
        destruct (Hshape k va vb Ha Hb) as [-> ->]. reflexivity. }
      assert (Hlt : capacity t c1 < total t c1).
      { unfold capacity, total.
        apply (sumZ_lt _ _ c1) with (i := i) (v := s1); [|exact Hs1|].
        - intros k v' Hv'. destruct (Z.eqb_spec (cargo_type v') t); [|lia].
          destruct (decide (k = i)) as [->|Hki].
          + rewrite Hs1 in Hv'. injection Hv' as <-. lia.
          + destruct Hfull as [Hz|Hfull]; [lia|].
            apply (Hfull k v'); [|assumption..|congruence].
            rewrite <- Hlen. apply (lookup_lt_Some _ _ _ Hv').
        - rewrite (proj2 (Z.eqb_eq _ _) Ht). exact Hleft. }
      lia.
    + intros s' H. rewrite list_lookup_alter_eq, Hs1 in H.
      injection H as <-. unfold fits. simpl. lia.
  - split; [split; [split|]|].
    + exact Hlen.
    + intros k v v' Hv Hv'. destruct (decide (k = i)) as [->|Hki].
      * rewrite Hs1 in Hv'. injection Hv' as <-.
        rewrite Hs in Hv. injection Hv as <-.
        split; [exact Hty|]. split; [exact Hcap|]. lia.
      * destruct (Hoth k v v' Hki Hv Hv') as (T & C & B).
        split; [exact T|]. split; [exact C|]. lia.
    + intros t. rewrite (Htot t). split; [lia|reflexivity].
    + intros s' H. rewrite Hs1 in H. injection H as <-. exact Hnone.
Qed.

Lemma CheckCargoCapacity_settles c :
  settles c (CheckCargoCapacity c) /\
  forall (k : nat) v, CheckCargoCapacity c !! k = Some v -> fits v.
Proof.
  unfold CheckCargoCapacity.
  assert (H : settles c (fold_left check_step (seq 0 (length c)) c) /\
              forall (k : nat) v, (k < length c)%nat ->
                fold_left check_step (seq 0 (length c)) c !! k = Some v ->
                fits v).
  { apply (fold_left_seq_inv check_step
             (fun j x => settles c x /\
                forall (k : nat) v, (k < j)%nat -> x !! k = Some v -> fits v)).
    - split; [apply settles_refl|]. intros k v Hk. lia.
    - intros j x _ [Hset Hfit].
      destruct (check_step_settles x j) as [Hstep Hj].
      split; [apply (settles_trans _ _ _ Hset Hstep)|].
      intros k v Hk Hv. destruct (decide (k = j)) as [->|Hkj].
      + apply (Hj v Hv).
      + destruct Hstep as [[Hlen Hb] _].
        destruct (lookup_lt_is_Some_2 x k) as [v0 Hv0].
        { rewrite <- Hlen. apply (lookup_lt_Some _ _ _ Hv). }
        assert (Hf0 : fits v0) by (apply (Hfit k v0); [lia|exact Hv0]).
        destruct (Hb k v0 v Hv0 Hv) as (_ & C & B).
        unfold fits in *. lia. }
  destruct H as [Hset Hfit]. split; [exact Hset|].
  intros k v Hv. apply (Hfit k v); [|exact Hv].
  destruct Hset as [[Hlen _] _]. rewrite <- Hlen.
  apply (lookup_lt_Some _ _ _ Hv).
Qed.

Lemma check_step_fits c i :
  (forall (k : nat) v, c !! k = Some v -> fits v) -> check_step c i = c.
Proof.
  intros Hfit. unfold check_step. destruct (c !! i) as [s|] eqn:Hs; [|reflexivity].
  pose proof (Hfit i s Hs) as H. unfold fits in H.
  destruct (Z.leb_spec (cargo_count s) (cargo_cap s)); [reflexivity|lia].
Qed.

(** X20: after the call every vehicle of the chain
    holds at most its capacity; the vehicles, their cargo types and their
    capacities are the same as before, and each vehicle holds an amount
    between what it held and its capacity, so a vehicle that was within its
    capacity still is and no amount leaves the range of the counter. *)
Theorem CheckCargoCapacity_fits (chain : list Vehicle) :
  let chain' := CheckCargoCapacity chain in
  same_vehicles chain chain' /\
  Forall fits chain' /\
  forall (k : nat) v v', chain !! k = Some v -> chain' !! k = Some v' ->
    Z.min (cargo_count v) (cargo_cap v) <= cargo_count v'
      <= Z.max (cargo_count v) (cargo_cap v).
Proof.
  intros chain'. destruct (CheckCargoCapacity_settles chain) as [[[Hlen Hb] _] Hfit].
  fold chain' in Hlen, Hb, Hfit.
  split; [split|split].
  - apply list_eq. intros k. rewrite !list_lookup_fmap.
    destruct (chain !! k) as [v|] eqn:Hv.
    + destruct (lookup_lt_is_Some_2 chain' k) as [v' Hv'].
      { rewrite Hlen. apply (lookup_lt_Some _ _ _ Hv). }
      rewrite Hv'. simpl. destruct (Hb k v v' Hv Hv') as (-> & _). reflexivity.
    + rewrite (proj2 (lookup_ge_None chain' k)); [reflexivity|].
      rewrite Hlen. apply lookup_ge_None. exact Hv.
  - apply list_eq. intros k. rewrite !list_lookup_fmap.
    destruct (chain !! k) as [v|] eqn:Hv.
    + destruct (lookup_lt_is_Some_2 chain' k) as [v' Hv'].
      { rewrite Hlen. apply (lookup_lt_Some _ _ _ Hv). }
      rewrite Hv'. simpl. destruct (Hb k v v' Hv Hv') as (_ & -> & _). reflexivity.
    + rewrite (proj2 (lookup_ge_None chain' k)); [reflexivity|].
      rewrite Hlen. apply lookup_ge_None. exact Hv.
  - apply Forall_lookup. exact Hfit.
  - intros k v v' Hv Hv'. apply (Hb k v v' Hv Hv').
Qed.

(** X21: per cargo type the chain never holds more
    after the call than before, and it holds exactly as much when the
    capacity of the vehicles of that type suffices for what they hold
    together: cargo is thrown away only when it fits nowhere. A chain in
    which every vehicle is within its capacity is left as it is. *)
Theorem CheckCargoCapacity_keeps_what_fits (chain : list Vehicle) (t : Z) :
  total t (CheckCargoCapacity chain) <= total t chain /\
  (total t chain <= capacity t chain ->
   total t (CheckCargoCapacity chain) = total t chain) /\
  (Forall fits chain -> CheckCargoCapacity chain = chain).
Proof.
  destruct (CheckCargoCapacity_settles chain) as [[_ Ht] _].
  destruct (Ht t) as [Hle Heq].
  split; [exact Hle|]. split; [exact Heq|].
  intros Hfit. unfold CheckCargoCapacity.
  assert (H : forall l, fold_left check_step l chain = chain).
  { induction l as [|j l IH]; [reflexivity|]. simpl.
    rewrite check_step_fits; [exact IH|].
    apply Forall_lookup. exact Hfit. }
  apply H.
Qed.

(** A wagon over its capacity hands the surplus to the next wagon of its
    cargo type in the chain that has room; what fits nowhere is dropped. *)
Example CheckCargoCapacity_example :
  CheckCargoCapacity
    [mkVehicle 1 10 25; mkVehicle 2 30 0; mkVehicle 1 12 4; mkVehicle 1 5 5]
  = [mkVehicle 1 10 10; mkVehicle 2 30 0; mkVehicle 1 12 12; mkVehicle 1 5 5].
Proof. reflexivity. Qed.

End CargoCapacity.
